(** * randpage: a shallow embedding of [main.go]

  randpage scans the files and paths passed on its command line for .pdf
  files, shuffles them, and opens the first usable one at a random page
  through a temporary loopback web server.

  The development follows the program top to bottom:
  - [GoStrings]  : the two [strings] functions the collector uses;
  - [Collector]  : the argument loop of [main] (standard input and
                   [filepath.WalkDir] with the callback of the source);
  - [Shuffle]    : [rnd.Shuffle] with the swap closure of the source;
  - [Server]     : the handler closure of [open] and its [sync.WaitGroup];
  - [Driver]     : the candidate loop of [main], [countPages] and [open];
  - [Part000]    : [looksLikePdf] and [readLines] of the other revision of
                   the file kept next to [main.go].

  What the Go runtime and the operating system decide (file system
  contents, what the scanner reads, what a [Write] on a connection
  returns, the random source, the viewer) is an explicit input of the
  model, never a hidden choice. *)

From Stdlib Require Import ZArith Ascii.
From stdpp Require Import base list strings pretty gmap.

Open Scope Z_scope.

(** Go's [error] values; only their presence matters to the program. *)
Definition error : Type := string.

(** A Go call returning [(T, error)]. *)
Inductive result (A : Type) : Type :=
| Ok (a : A)
| Err (e : error).
Arguments Ok {A} a.
Arguments Err {A} e.

(** ** [strings.ToLower] and [strings.HasSuffix] *)
Module GoStrings.

(** [ToLower] on one byte. Only ASCII letters are mapped: the other runes
    Go lowers never become one of the bytes of ".pdf", and the bytes of a
    multi-byte rune are all above 127, so the suffix test of the source
    cannot tell the difference. *)
Definition lowerByte (c : ascii) : ascii :=
  let n := nat_of_ascii c in
  if ((65 <=? n)%nat && (n <=? 90)%nat)%bool
  then ascii_of_nat (n + 32) else c.

Fixpoint ToLower (s : string) : string :=
  match s with
  | EmptyString => EmptyString
  | String c s' => String (lowerByte c) (ToLower s')
  end.

(** [s[len(s)-len(suffix):]] *)
Definition tail_from (s : string) (k : nat) : string :=
  String.substring k (String.length s - k) s.

(** [len(s) >= len(suffix) && s[len(s)-len(suffix):] == suffix] *)
Definition HasSuffix (s suffix : string) : bool :=
  (String.length suffix <=? String.length s)%nat
  && String.eqb (tail_from s (String.length s - String.length suffix)) suffix.

End GoStrings.

(** ** The candidate collector: the argument loop of [main] *)
Module Collector.
Import GoStrings.

(** *** Standard input through [bufio.Scanner]

    One [scan] is what one scanner created over [os.Stdin] delivers: the
    lines [scanner.Text()] returns while [scanner.Scan()] is true, and
    what [scanner.Err()] reports afterwards. [os.Stdin] itself is the
    list of scans still to come, one for each scanner the program
    creates; a scanner created when the list is empty reads nothing. *)
Record scan : Type := { lines : list string; scanErr : option error }.

Definition noInput : scan := {| lines := []; scanErr := None |}.

(** *** The file system as [filepath.WalkDir] sees it *)

(** The type bits of [fs.FileMode] other than [ModeDir]; no bit set is a
    regular file. *)
Inductive leafType : Type :=
| Regular | Symlink | NamedPipe | Socket | Device | CharDevice | Irregular.

(** A directory entry: a non-directory, or a directory with what
    [os.ReadDir] returns for it (the entries read, in the order ReadDir
    gives them, and the error if it failed). *)
#[warnings="-register-all"]
Inductive node : Type :=
| Leaf (name : string) (ty : leafType)
| Dir (name : string) (children : list node) (rderr : option error).

(** [d.Name()] *)
Definition Name (d : node) : string :=
  match d with Leaf n _ => n | Dir n _ _ => n end.

(** [d.IsDir()] *)
Definition IsDir (d : node) : bool :=
  match d with Leaf _ _ => false | Dir _ _ _ => true end.

(** [d.Type().IsRegular()] *)
Definition IsRegular (d : node) : bool :=
  match d with Leaf _ Regular => true | _ => false end.

(** What a [fs.WalkDirFunc] returns. *)
Inductive walkRet : Type :=
| RetNil | RetSkipDir | RetSkipAll | RetErr (e : error).

(** How [WalkDir] calls its function: with an entry and a nil error, or
    with an error (and the entry, except when [Lstat] of the root
    failed). *)
Inductive walkArg : Type :=
| Visit (d : node)
| Failed (d : option node) (e : error).

Section WalkDir.
(** [filepath.Join], used by WalkDir to name the children. *)
Variable Join : string -> string -> string.
(** [os.Lstat] of a root argument. *)
Variable Lstat : string -> result node.

Context {S : Type}.
Variable fn : string -> walkArg -> S -> S * walkRet.

(** [filepath.walkDir]: call [fn] on the entry; for a directory read it,
    report a ReadDir error with a second call, then walk the entries
    read. An error from a child ends the loop and is returned;
    [SkipDir] from a child only ends the loop. *)
Fixpoint walkDir (path : string) (d : node) (st : S) {struct d}
  : S * walkRet :=
  match fn path (Visit d) st with
  | (st1, RetNil) =>
      match d with
      | Leaf _ _ => (st1, RetNil)
      | Dir _ children rderr =>
          let '(st2, r2) :=
            match rderr with
            | None => (st1, RetNil)
            | Some e => fn path (Failed (Some d) e) st1
            end in
          match r2 with
          | RetNil =>
              (fix loop (dirs : list node) (st : S) : S * walkRet :=
                 match dirs with
                 | [] => (st, RetNil)
                 | d1 :: rest =>
                     match walkDir (Join path (Name d1)) d1 st with
                     | (st', RetNil) => loop rest st'
                     | (st', RetSkipDir) => (st', RetNil)
                     | (st', r) => (st', r)
                     end
                 end) children st2
          | RetSkipDir => (st2, RetNil)
          | r => (st2, r)
          end
      end
  | (st1, RetSkipDir) =>
      if IsDir d then (st1, RetNil) else (st1, RetSkipDir)
  | (st1, r) => (st1, r)
  end.

(** The loop of [walkDir] over the entries of a directory, by name. *)
Fixpoint walkList (path : string) (dirs : list node) (st : S)
  : S * walkRet :=
  match dirs with
  | [] => (st, RetNil)
  | d1 :: rest =>
      match walkDir (Join path (Name d1)) d1 st with
      | (st', RetNil) => walkList path rest st'
      | (st', RetSkipDir) => (st', RetNil)
      | (st', r) => (st', r)
      end
  end.

(** [filepath.WalkDir] *)
Definition WalkDir (root : string) (st : S) : S * walkRet :=
  let '(st', r) :=
    match Lstat root with
    | Err e => fn root (Failed None e) st
    | Ok d => walkDir root d st
    end in
  match r with
  | RetSkipDir | RetSkipAll => (st', RetNil)
  | _ => (st', r)
  end.
End WalkDir.

(** *** [main], lines 27-53 *)

(** The process state the argument loop touches. *)
Record state : Type := {
  stdin : list scan;        (* os.Stdin *)
  stdout : list string;     (* lines printed with fmt.Printf *)
  pdfs : list string        (* var pdfs []string *)
}.

(** The function literal passed to WalkDir (lines 41-52). *)
Definition walkFn (path : string) (a : walkArg) (pdfs : list string)
  : list string * walkRet :=
  match a with
  | Failed _ err => (pdfs, RetErr err)
  | Visit d =>
      let lowername := ToLower (Name d) in
      if IsRegular d && HasSuffix lowername ".pdf"
      then (pdfs ++ [path], RetNil)
      else (pdfs, RetNil)
  end.

Section Main.
Variable Join : string -> string -> string.
Variable Lstat : string -> result node.

(** The body of [for _, arg := range os.Args[1:]]. *)
Definition collectArg (arg : string) (st : state) : state :=
  if String.eqb arg "-" then
    let sc := hd noInput (stdin st) in
    let pdfs' := foldl (fun acc text => acc ++ [text]) (pdfs st) (lines sc) in
    let out' :=
      match scanErr sc with
      | Some err => stdout st ++ ["Reading standard input: " +:+ err]
      | None => stdout st
      end in
    {| stdin := tl (stdin st); stdout := out'; pdfs := pdfs' |}
  else
    (* the error WalkDir returns is dropped *)
    let '(pdfs', _) := WalkDir Join Lstat walkFn arg (pdfs st) in
    {| stdin := stdin st; stdout := stdout st; pdfs := pdfs' |}.

Definition collect (args : list string) (st : state) : state :=
  foldl (fun st arg => collectArg arg st) st args.
End Main.

(** *** What a traversal can meet, written without the walk

    [events] lists, in the order of a depth-first traversal, every entry
    of a tree and every ReadDir failure; nothing here stops early. *)
Inductive event : Type :=
| Met (path : string) (d : node)
| Broke (path : string) (e : error).

Section Tree.
Variable Join : string -> string -> string.

Fixpoint events (path : string) (d : node) {struct d} : list event :=
  Met path d ::
  match d with
  | Leaf _ _ => []
  | Dir _ children rderr =>
      match rderr with Some e => [Broke path e] | None => [] end ++
      (fix each (dirs : list node) : list event :=
         match dirs with
         | [] => []
         | d1 :: rest => events (Join path (Name d1)) d1 ++ each rest
         end) children
  end.

Fixpoint eventsList (path : string) (dirs : list node) : list event :=
  match dirs with
  | [] => []
  | d1 :: rest => events (Join path (Name d1)) d1 ++ eventsList path rest
  end.

(** Every entry reachable from [d] by descending through directories,
    with its path, parents before children. *)
Fixpoint reachable (path : string) (d : node) {struct d}
  : list (string * node) :=
  (path, d) ::
  match d with
  | Leaf _ _ => []
  | Dir _ children _ =>
      (fix each (dirs : list node) : list (string * node) :=
         match dirs with
         | [] => []
         | d1 :: rest => reachable (Join path (Name d1)) d1 ++ each rest
         end) children
  end.

Fixpoint reachableList (path : string) (dirs : list node)
  : list (string * node) :=
  match dirs with
  | [] => []
  | d1 :: rest => reachable (Join path (Name d1)) d1 ++ reachableList path rest
  end.
End Tree.

(** No directory of the tree fails to be read. *)
Fixpoint readable (d : node) : bool :=
  match d with
  | Leaf _ _ => true
  | Dir _ children rderr =>
      match rderr with Some _ => false | None => true end &&
      (fix each (dirs : list node) : bool :=
         match dirs with
         | [] => true
         | d1 :: rest => readable d1 && each rest
         end) children
  end.

Fixpoint readableList (dirs : list node) : bool :=
  match dirs with
  | [] => true
  | d1 :: rest => readable d1 && readableList rest
  end.

(** A regular file whose lowercased name ends in ".pdf". *)
Definition isPdfFile (d : node) : bool :=
  IsRegular d && HasSuffix (ToLower (Name d)) ".pdf".

(** The pdf files among the entries of a listing. *)
Definition pdfPaths (entries : list (string * node)) : list string :=
  map fst (List.filter (fun e => isPdfFile (snd e)) entries).

(** The events up to the first failure. *)
Fixpoint beforeBroke (evs : list event) : list event :=
  match evs with
  | Met p d :: rest => Met p d :: beforeBroke rest
  | _ => []
  end.

(** The first failure, if there is one. *)
Fixpoint firstBroke (evs : list event) : option error :=
  match evs with
  | [] => None
  | Met _ _ :: rest => firstBroke rest
  | Broke _ e :: _ => Some e
  end.

(** The paths of the pdf files among some events. *)
Definition picked (evs : list event) : list string :=
  flat_map (fun ev =>
              match ev with
              | Met p d => if isPdfFile d then [p] else []
              | Broke _ _ => []
              end) evs.

(** What one root argument can meet: the Lstat failure, or its tree. *)
Definition rootEvents (Join : string -> string -> string)
  (Lstat : string -> result node) (arg : string) : list event :=
  match Lstat arg with
  | Err e => [Broke arg e]
  | Ok d => events Join arg d
  end.

(** The collection in which a failing directory costs its own subtree
    and nothing else: the entries below a directory that could not be
    read are left out, every other entry is looked at. *)
Fixpoint keptOutsideFailures (Join : string -> string -> string)
  (path : string) (d : node) {struct d} : list string :=
  (if isPdfFile d then [path] else []) ++
  match d with
  | Leaf _ _ => []
  | Dir _ _ (Some _) => []
  | Dir _ children None =>
      (fix each (dirs : list node) : list string :=
         match dirs with
         | [] => []
         | d1 :: rest =>
             keptOutsideFailures Join (Join path (Name d1)) d1 ++ each rest
         end) children
  end.

(** The reading under which a failure costs only the failing subtree. *)
Definition losesOnlyFailedSubtrees (Join : string -> string -> string)
  (Lstat : string -> result node) (arg : string) (st : state) : Prop :=
  forall root, Lstat arg = Ok root ->
    pdfs (collectArg Join Lstat arg st)
    = pdfs st ++ keptOutsideFailures Join arg root.

(** What a walk that stops at the first failure returns. *)
Definition retOf (evs : list event) : walkRet :=
  match firstBroke evs with Some e => RetErr e | None => RetNil end.

End Collector.

(** ** The random source, [math/rand]

    The source is given by the 63-bit value each draw of the program
    settles on, and by how many draws were made. Which value of the range
    a bounded draw returns is the generator's business; the model obtains
    it from that value by reduction, so that any value of the range can
    come out. math/rand may go through several values of the underlying
    generator before it settles on one (it draws again on rejection):
    how many it takes is not modelled, and [used] counts the draws of the
    program, not the values of the generator. *)
Module Rand.

Record Rand : Type := { raw : nat -> Z; used : nat }.

(** [r.Int63()], as far as the program sees it: the value the next draw
    settles on. *)
Definition Int63 (r : Rand) : Z * Rand :=
  (raw r (used r) mod 2 ^ 63, {| raw := raw r; used := S (used r) |}).

(** [r.Intn(n)]: a value of [[0, n)]; it panics when [n <= 0], which is
    [None] here. *)
Definition Intn (n : Z) (r : Rand) : option (Z * Rand) :=
  if n <=? 0 then None
  else let '(v, r') := Int63 r in Some (v mod n, r').

End Rand.

(** ** [rnd.Shuffle(len(pdfs), func(i, j int) {...})], lines 55-58 *)
Module Shuffle.
Import Rand.

(** The swap closure: [pdfs[i], pdfs[j] = pdfs[j], pdfs[i]]. Both operands
    are read, then [pdfs[i]] and [pdfs[j]] are assigned in that order; an
    index outside the slice is a run-time panic, [None] here. *)
Definition swap {A : Type} (i j : nat) (pdfs : list A) : option (list A) :=
  match pdfs !! i, pdfs !! j with
  | Some x, Some y => Some (<[j := x]> (<[i := y]> pdfs))
  | _, _ => None
  end.

(** The loop of [Rand.Shuffle]: [for i := n - 1; i > 0; i-- { j := a draw
    from [0, i]; swap(i, j) }]; the argument is the current [i]. *)
Fixpoint shuffleFrom {A : Type} (i : nat) (r : Rand) (pdfs : list A)
  : option (list A * Rand) :=
  match i with
  | O => Some (pdfs, r)
  | S i' =>
      let '(v, r') := Int63 r in
      let j := Z.to_nat (v mod Z.of_nat (S i)) in
      match swap i j pdfs with
      | None => None
      | Some pdfs' => shuffleFrom i' r' pdfs'
      end
  end.

(** The call of the source, with [n = len(pdfs)]. *)
Definition shuffle {A : Type} (r : Rand) (pdfs : list A)
  : option (list A * Rand) :=
  shuffleFrom (length pdfs - 1) r pdfs.

End Shuffle.

(** ** The handler closure of [open] and its wait group, lines 106-133 *)
Module Server.

Definition byte : Type := Byte.byte.

(** One call of [w.Write(buf)] as the connection answers it: the number of
    bytes taken and the error. *)
Definition written : Type := (nat * option error)%type.

(** One request as the handler sees it: [r.URL.Path], and what the calls
    of [w.Write] on its connection return, in order. A call beyond the
    end of the list does not return (the peer stopped reading). *)
Record exchange : Type := { urlPath : string; writes : list written }.

Record response : Type := {
  status : Z;
  header : gmap string string;
  body : list byte
}.

(** How one run of the handler ends. *)
Inductive ending : Type :=
| NotFound                (* the 404 branch returned *)
| Completed               (* the loop ended and wg.Done() was called *)
| WriteFailed (e : error) (* the return inside the loop *)
| InWrite                 (* still inside a Write that does not return *)
| Crashed.                (* run-time panic, recovered by net/http *)

(** The loop [for len(buf) > 0 { n, err := w.Write(buf); if err != nil {
    return }; buf = buf[n:] }], with the bytes handed over so far. Slicing
    beyond the length is a run-time panic. *)
Fixpoint writeLoop (buf : list byte) (script : list written)
  (sent : list byte) {struct script} : list byte * ending :=
  match buf, script with
  | [], _ => (sent, Completed)
  | _ :: _, [] => (sent, InWrite)
  | _ :: _, (n, Some e) :: _ => (sent ++ take n buf, WriteFailed e)
  | _ :: _, (n, None) :: script' =>
      if (n <=? length buf)%nat
      then writeLoop (drop n buf) script' (sent ++ take n buf)
      else (sent ++ buf, Crashed)
  end.

Definition isCompleted (e : ending) : bool :=
  match e with Completed => true | _ => false end.

(** [wg.Done()], that is [wg.Add(-1)]: the counter is decremented, and a
    negative result is a panic (the counter stays decremented). *)
Definition Done (wg : Z) : Z * bool :=
  let v := wg - 1 in (v, v <? 0).

(** [http.NotFound(w, r)] *)
Definition notFound : response :=
  {| status := 404;
     header := {[ "Content-Type" := "text/plain; charset=utf-8";
                  "X-Content-Type-Options" := "nosniff" ]};
     body := String.list_byte_of_string
               ("404 page not found" +:+ String "010"%char EmptyString) |}.

(** [strconv.Itoa] on a length. *)
Definition Itoa (n : nat) : string := pretty n.

(** What one run of the handler leaves behind. *)
Record handled : Type := {
  resp : response;      (* what went to the client *)
  how : ending;
  wgAfter : Z;          (* the wait group counter *)
  said : list string    (* fmt.Println output *)
}.

(** The handler (lines 113-132), for the [filename] and [buf] captured by
    the closure and the current wait group counter. *)
Definition handler (filename : string) (buf : list byte) (wg : Z)
  (x : exchange) : handled :=
  if negb (String.eqb (urlPath x) ("/" +:+ filename)) then
    {| resp := notFound; how := NotFound; wgAfter := wg; said := [] |}
  else
    let h : gmap string string :=
      <["Content-Length" := Itoa (length buf)]>
        (<["Content-Type" := "application/pdf"]> ∅) in
    let '(sent, e) := writeLoop buf (writes x) [] in
    let r := {| status := 200; header := h; body := sent |} in
    match e with
    | Completed =>
        let '(v, panicked) := Done wg in
        {| resp := r; how := if panicked then Crashed else Completed;
           wgAfter := v; said := [] |}
    | WriteFailed err =>
        {| resp := r; how := e; wgAfter := wg; said := [err] |}
    | _ => {| resp := r; how := e; wgAfter := wg; said := [] |}
    end.

(** The server of one attempt: [srv.Serve(ln)] runs the handler on every
    request that arrives; nothing in the source closes it. *)
Record server : Type := {
  wg : Z;                     (* the counter *)
  releases : nat;             (* how often Done brought it to zero *)
  answers : list handled      (* one per request served *)
}.

(** [var wg sync.WaitGroup; wg.Add(1)] *)
Definition started : server := {| wg := 1; releases := 0; answers := [] |}.

Definition serve1 (filename : string) (buf : list byte) (s : server)
  (x : exchange) : server :=
  let h := handler filename buf (wg s) x in
  {| wg := wgAfter h;
     releases := if (wgAfter h =? 0) && isCompleted (how h)
                 then S (releases s) else releases s;
     answers := answers s ++ [h] |}.

Definition serve (filename : string) (buf : list byte)
  (xs : list exchange) (s : server) : server :=
  foldl (serve1 filename buf) s xs.

(** A run of the handler that hands the whole document to the client. *)
Definition fullServe (buf : list byte) (h : handled) : Prop :=
  status (resp h) = 200 /\ body (resp h) = buf.

(** [wg.Wait()]: it returns at once when the counter is zero as it is
    called; otherwise it blocks, and returns when a later [Done] brings the
    counter to zero. [atCall] is the server as main reaches the call,
    [atEnd] the server after the requests that follow. A counter that went
    through zero and below before the call is not zero at the call and is
    never brought to zero again. *)
Definition waitReturns (atCall atEnd : server) : bool :=
  (wg atCall =? 0) || (releases atCall <? releases atEnd)%nat.

End Server.

(** ** The candidate loop of [main], [countPages] and [open] *)
Module Driver.
Import Rand Server.

(** The document context of pdfcpu, as far as the program reads it. *)
Record Context : Type := { PageCount : Z }.

(** What lies outside the program. *)
Record world : Type := {
  Join : string -> string -> string;          (* filepath.Join *)
  Lstat : string -> result Collector.node;    (* os.Lstat of an argument *)
  ReadContextFile : string -> result Context; (* api.ReadContextFile *)
  ReadFile : string -> result (list byte);    (* os.ReadFile *)
  Listen : nat -> result Z;  (* the port of the n-th net.Listen, from 0 *)
  Base : string -> string;                    (* filepath.Base *)
  PathEscape : string -> string;              (* url.PathEscape *)
  Run : string -> option error;  (* exec.Command("open", url).Run() *)
  traffic : string -> list exchange;
    (* the requests the server announced under that url serves while the
       process lives, in the order their handlers run *)
  early : string -> nat
    (* how many of them have been served when main, back from cmd.Run(),
       reaches wg.Wait() *)
}.

(** [countPages], lines 81-88 *)
Definition countPages (w : world) (path : string) : result Z :=
  match ReadContextFile w path with
  | Err err => Err err
  | Ok doc => Ok (PageCount doc)
  end.

(** A server started with [go srv.Serve(ln)]. *)
Record listener : Type := { port : Z; filename : string; doc : list byte }.

(** What the driver does, as seen from outside. *)
Inductive action : Type :=
| Call (path : string) (nPages page : Z) (live : list listener)
    (* open(path, page) is called while the servers [live] are up *)
| Return (err : option error).
    (* that call of open returned *)

Record proc : Type := {
  rnd : Rand;
  out : list string;         (* standard output *)
  listens : nat;             (* calls of net.Listen so far *)
  servers : list listener    (* servers started; none is ever closed *)
}.

Inductive opened : Type :=
| Opened                     (* return nil *)
| OpenFailed (err : error)   (* return err *)
| Waiting.                   (* wg.Wait() does not return *)

(** The url handed to the viewer (line 110). *)
Definition urlOf (w : world) (port : Z) (filename : string) (page : Z)
  : string :=
  "http://127.0.0.1:" +:+ pretty port +:+ "/" +:+ PathEscape w filename
    +:+ "#page=" +:+ pretty page.

(** [open], lines 94-144 *)
Definition open (w : world) (path : string) (page : Z) (p : proc)
  : proc * opened :=
  match ReadFile w path with
  | Err err => (p, OpenFailed err)
  | Ok buf =>
      let p1 := {| rnd := rnd p; out := out p; listens := S (listens p);
                   servers := servers p |} in
      match Listen w (listens p) with
      | Err err => (p1, OpenFailed err)
      | Ok port =>
          let filename := Base w path in
          let url := urlOf w port filename page in
          (* go srv.Serve(ln) *)
          let p2 := {| rnd := rnd p1; out := out p1; listens := listens p1;
                       servers := servers p1 ++
                         [{| port := port; filename := filename; doc := buf |}] |} in
          match Run w url with
          | Some err => (p2, OpenFailed err)
          | None =>
              let xs := traffic w url in
              let atCall :=
                serve filename buf (take (early w url) xs) started in
              let atEnd :=
                serve filename buf (drop (early w url) xs) atCall in
              (* what the handler runs printed with fmt.Println *)
              let p3 := {| rnd := rnd p2;
                           out := out p2 ++ flat_map said (answers atEnd);
                           listens := listens p2; servers := servers p2 |} in
              (* wg.Wait() *)
              if waitReturns atCall atEnd
              then (p3, Opened) else (p3, Waiting)
          end
      end
  end.

(** How the process ends. *)
Inductive exit : Type :=
| Exit (code : Z)   (* os.Exit(code) *)
| Panic             (* an unrecovered run-time panic *)
| Hang.             (* blocked for ever in wg.Wait() *)

(** [for len(pdfs) > 0 { ... }] and what follows it, lines 60-78. *)
Fixpoint drive (w : world) (pdfs : list string) (p : proc)
  : proc * list action * exit :=
  match pdfs with
  | [] =>
      ({| rnd := rnd p; out := out p ++ ["Could not find a usable PDF"];
          listens := listens p; servers := servers p |}, [], Exit 1)
  | path :: pdfs' =>
      match countPages w path with
      | Err _ => drive w pdfs' p
      | Ok nPages =>
          match Intn nPages (rnd p) with
          | None => (p, [], Panic)
          | Some (v, r') =>
              let page := v + 1 in
              let p1 := {| rnd := r'; out := out p; listens := listens p;
                           servers := servers p |} in
              let call := Call path nPages page (servers p) in
              match open w path page p1 with
              | (p2, OpenFailed err) =>
                  let '(p3, t, e) := drive w pdfs' p2 in
                  (p3, call :: Return (Some err) :: t, e)
              | (p2, Opened) => (p2, [call; Return None], Exit 0)
              | (p2, Waiting) => (p2, [call], Hang)
              end
          end
      end
  end.

(** [main] *)
Definition main (w : world) (args : list string)
  (stdin : list Collector.scan) (seed : Rand) : proc * list action * exit :=
  let st := Collector.collect (Join w) (Lstat w) args
              {| Collector.stdin := stdin; Collector.stdout := [];
                 Collector.pdfs := [] |} in
  let p := {| rnd := seed; out := Collector.stdout st; listens := O;
              servers := [] |} in
  match Shuffle.shuffle seed (Collector.pdfs st) with
  | None => (p, [], Panic)
  | Some (pdfs, r) =>
      drive w pdfs {| rnd := r; out := out p; listens := O; servers := [] |}
  end.

(** One attempt after the other, with the servers that are up: a call that
    returns an error is followed by the rest of the run, which starts with
    at most one more server up; a call that returns nil, or does not
    return, ends the trace. *)
Inductive attempts : list listener -> list action -> list listener -> Prop :=
| attempts_done live :
    attempts live [] live
| attempts_failed live live' final path nPages page err t :
    live' = live \/ (exists srv, live' = live ++ [srv]) ->
    attempts live' t final ->
    attempts live (Call path nPages page live :: Return (Some err) :: t) final
| attempts_opened live srv path nPages page :
    attempts live [Call path nPages page live; Return None] (live ++ [srv])
| attempts_waiting live srv path nPages page :
    attempts live [Call path nPages page live] (live ++ [srv]).

(** No call of open is made while a server of an earlier call is up. *)
Definition neverTwoServers (t : list action) : Prop :=
  forall path nPages page live,
    Call path nPages page live ∈ t -> live = [].

End Driver.

(** ** [looksLikePdf] and [readLines] of the other revision of the file *)
Module Part000.
Import GoStrings Collector.

Definition looksLikePdf (s : string) : bool :=
  HasSuffix (ToLower s) ".pdf".

(** [readLines]: the scanner is created over [os.Stdin], whatever the
    reader passed in; the lines that look like a pdf are kept. The result
    is the slice and what is left of standard input. *)
Definition readLines (stdin : list scan) : list string * list scan :=
  let sc := hd noInput stdin in
  (foldl (fun ret text => if looksLikePdf text then ret ++ [text] else ret)
     [] (lines sc),
   tl stdin).

End Part000.

(** ** Concrete inputs used in the examples *)
Module Samples.
Import Collector Rand Server Driver.

(** [filepath.Join] on two clean relative elements. *)
Definition joinSlash (dir name : string) : string := dir +:+ "/" +:+ name.

(** docs/ holds a pdf in capitals, a symlink named like a pdf, a text
    file, and a subdirectory with one more pdf. *)
Definition docs : node :=
  Dir "docs"
    [ Leaf "A.PDF" Regular;
      Leaf "link.pdf" Symlink;
      Leaf "notes.txt" Regular;
      Dir "sub" [ Leaf "c.pdf" Regular ] None ]
    None.

(** inbox/ holds a directory that cannot be read, then a pdf. *)
Definition inbox : node :=
  Dir "inbox"
    [ Dir "a" [] (Some "permission denied");
      Leaf "b.pdf" Regular ]
    None.

(** mixed/ holds a pdf, a directory that cannot be read, and a pdf. *)
Definition mixed : node :=
  Dir "mixed"
    [ Leaf "a.pdf" Regular;
      Dir "b" [] (Some "permission denied");
      Leaf "c.pdf" Regular ]
    None.

Definition lstat (arg : string) : result node :=
  if String.eqb arg "docs" then Ok docs
  else if String.eqb arg "inbox" then Ok inbox
  else if String.eqb arg "mixed" then Ok mixed
  else Err "no such file or directory".

Definition fresh (input : list scan) : state :=
  {| stdin := input; stdout := []; pdfs := [] |}.

(** Two lines on standard input, one of them not a pdf. *)
Definition twoLines : list scan :=
  [ {| lines := ["notes.txt"; "a.pdf"]; scanErr := None |} ].

(** A random source. *)
Definition seed : Rand := {| raw := fun k => Z.of_nat (7 * k + 5); used := 0 |}.

(** The bytes of three small documents. *)
Definition reportBytes : list byte := String.list_byte_of_string "%PDF-1.4 report".
Definition aBytes : list byte := String.list_byte_of_string "%PDF-1.4 a".
Definition bBytes : list byte := String.list_byte_of_string "%PDF-1.4 b".

(** A request for [path] on a connection that takes [n] bytes at once. *)
Definition get (path : string) (n : nat) : exchange :=
  {| urlPath := path; writes := [(n, None)] |}.

(** A request for [path] on a connection that breaks after [n] bytes. *)
Definition getBroken (path : string) (n : nat) : exchange :=
  {| urlPath := path; writes := [(n, Some "write: broken pipe")] |}.

(** A world with four files: a.pdf and b.pdf of three pages, empty.pdf of
    no page, and corrupt.pdf that pdfcpu cannot read. The first listener
    gets port 40000, the next 40001, and so on. The viewer cannot be
    launched for a.pdf on port 40000; otherwise it is launched and asks
    for b.pdf once. *)
Definition twoAttempts : world :=
  {| Join := joinSlash;
     Lstat := lstat;
     ReadContextFile := fun path =>
       if String.eqb path "corrupt.pdf" then Err "pdfcpu: not a pdf"
       else if String.eqb path "empty.pdf" then Ok {| PageCount := 0 |}
       else Ok {| PageCount := 3 |};
     ReadFile := fun path =>
       if String.eqb path "a.pdf" then Ok aBytes else Ok bBytes;
     Listen := fun n => Ok (40000 + Z.of_nat n);
     Base := fun path => path;
     PathEscape := fun name => name;
     Run := fun url =>
       if String.prefix "http://127.0.0.1:40000/a.pdf" url
       then Some "exit status 1" else None;
     traffic := fun url => [ get "/b.pdf" (length bBytes) ];
     early := fun _ => O |}.

(** The same world, but the one request for b.pdf breaks after 4 bytes. *)
Definition brokenPipe : world :=
  {| Join := Join twoAttempts; Lstat := Lstat twoAttempts;
     ReadContextFile := ReadContextFile twoAttempts;
     ReadFile := ReadFile twoAttempts;
     Listen := Listen twoAttempts;
     Base := Base twoAttempts; PathEscape := PathEscape twoAttempts;
     Run := fun _ => None;
     traffic := fun url => [ get "/favicon.ico" 0; getBroken "/b.pdf" 4 ];
     early := fun _ => O |}.

(** The same world, but the viewer asks again after the broken pipe and
    the second request is written in full. *)
Definition retry : world :=
  {| Join := Join twoAttempts; Lstat := Lstat twoAttempts;
     ReadContextFile := ReadContextFile twoAttempts;
     ReadFile := ReadFile twoAttempts;
     Listen := Listen twoAttempts;
     Base := Base twoAttempts; PathEscape := PathEscape twoAttempts;
     Run := fun _ => None;
     traffic := fun url =>
       [ getBroken "/b.pdf" 4; get "/b.pdf" (length bBytes) ];
     early := fun _ => O |}.

(** The same world, but the viewer asks twice, both requests are written
    in full, and [n] of them are over when main reaches wg.Wait(). *)
Definition askedTwice (n : nat) : world :=
  {| Join := Join twoAttempts; Lstat := Lstat twoAttempts;
     ReadContextFile := ReadContextFile twoAttempts;
     ReadFile := ReadFile twoAttempts;
     Listen := Listen twoAttempts;
     Base := Base twoAttempts; PathEscape := PathEscape twoAttempts;
     Run := fun _ => None;
     traffic := fun url =>
       [ get "/b.pdf" (length bBytes); get "/b.pdf" (length bBytes) ];
     early := fun _ => n |}.

Definition boot : proc :=
  {| rnd := seed; out := []; listens := O; servers := [] |}.

End Samples.

(** ** Readings of a run used to state what the code does *)
Module Observed.
Import Server Driver.

(** The request asks for the path the handler expects. *)
Definition expected (filename : string) (x : exchange) : bool :=
  String.eqb (urlPath x) ("/" +:+ filename).

(** The request asks for the expected path and its connection takes the
    writes until the loop ends. *)
Definition completes (filename : string) (buf : list byte) (x : exchange)
  : bool :=
  expected filename x && isCompleted (snd (writeLoop buf (writes x) [])).

(** The number of requests that complete. *)
Definition completed (filename : string) (buf : list byte)
  (xs : list exchange) : Z :=
  Z.of_nat (length (List.filter (completes filename buf) xs)).

(** The line printed when no candidate could be opened. *)
Definition failureLine : string := "Could not find a usable PDF".

(** The paths [open] was called with, in order. *)
Fixpoint called (t : list action) : list string :=
  match t with
  | [] => []
  | Call path _ _ _ :: t' => path :: called t'
  | Return _ :: t' => called t'
  end.

(** The connection answers of a client that reads the document in the
    given pieces, one piece per call of [Write]. *)
Definition inPieces (pieces : list (list byte)) : list written :=
  map (fun piece => (length piece, None)) pieces.

(** The line is the error some call of Write returned on some request. *)
Definition writeError (w : world) (line : string) : Prop :=
  exists url x n, In x (traffic w url) /\ In (n, Some line) (writes x).

End Observed.

(** ** The first revision kept in part_000: [execOpen]'s handler

    The closure writes through the variable [buf] of [execOpen] itself, so
    what one request consumes is gone for the next; it does not look at the
    request, and a failed write is printed and the loop goes on. *)
Module Part000First.
Import Server.

(** The loop [for len(buf) > 0 { n, err := w.Write(buf); if err != nil {
    fmt.Println(err) }; buf = buf[n:] }]: what is left of the shared
    buffer, the bytes handed over, the lines printed, and how it ended. *)
Fixpoint writeLoop (buf : list byte) (script : list written)
  (sent : list byte) (said : list string) {struct script}
  : list byte * list byte * list string * ending :=
  match buf, script with
  | [], _ => ([], sent, said, Completed)
  | _ :: _, [] => (buf, sent, said, InWrite)
  | _ :: _, (n, err) :: script' =>
      let said' := match err with Some e => said ++ [e] | None => said end in
      if (n <=? length buf)%nat
      then writeLoop (drop n buf) script' (sent ++ take n buf) said'
      else (buf, sent ++ buf, said', Crashed)
  end.

(** The same connection, had it reported no error. *)
Definition hushed (script : list written) : list written :=
  map (fun w => (fst w, None)) script.

(** What the loop leaves, but for the lines printed. *)
Definition unsaid (r : list byte * list byte * list string * ending)
  : list byte * list byte * ending :=
  let '(rest, sent, _, e) := r in (rest, sent, e).

(** The state the closure shares with [execOpen] and with its other runs. *)
Record shared : Type := { buf : list byte; wg : Z }.

(** One run of the handler (part_000, lines 96-105). *)
Definition handler (s : shared) (x : exchange) : shared * handled :=
  let '(rest, sent, said, e) := writeLoop (buf s) (writes x) [] [] in
  let r := {| status := 200; header := ∅; body := sent |} in
  match e with
  | Completed =>
      let '(v, panicked) := Done (wg s) in
      ({| buf := rest; wg := v |},
       {| resp := r; how := if panicked then Crashed else Completed;
          wgAfter := v; said := said |})
  | _ =>
      ({| buf := rest; wg := wg s |},
       {| resp := r; how := e; wgAfter := wg s; said := said |})
  end.

End Part000First.

(** ** The collector of the later revision kept in part_000 *)
Module Part000Collect.
Import GoStrings Collector Part000.

(** The function literal of [walkForPdfs] (part_000, lines 206-216). *)
Definition walkFn (path : string) (a : walkArg) (ret : list string)
  : list string * walkRet :=
  match a with
  | Failed _ err => (ret, RetErr err)
  | Visit d =>
      if IsRegular d && looksLikePdf (Name d)
      then (ret ++ [path], RetNil)
      else (ret, RetNil)
  end.

Section Main.
Variable Join : string -> string -> string.
Variable Lstat : string -> result node.

(** [walkForPdfs] *)
Definition walkForPdfs (arg : string) : list string :=
  fst (WalkDir Join Lstat walkFn arg []).

(** The body of the argument loop of [main] (part_000, lines 155-162);
    the structured log is left out. *)
Definition collectArg (arg : string) (st : state) : state :=
  if String.eqb arg "-" then
    let '(ret, stdin') := readLines (stdin st) in
    {| stdin := stdin'; stdout := stdout st; pdfs := pdfs st ++ ret |}
  else
    {| stdin := stdin st; stdout := stdout st;
       pdfs := pdfs st ++ walkForPdfs arg |}.

Definition collect (args : list string) (st : state) : state :=
  foldl (fun st arg => collectArg arg st) st args.
End Main.

End Part000Collect.

(** * Properties of the collector *)
Section CollectorFacts.
Import GoStrings Collector.
Variable Join : string -> string -> string.

(** Induction on a tree with the hypothesis available for every child. *)
Lemma node_rect_list (P : node -> Prop) :
  (forall n ty, P (Leaf n ty)) ->
  (forall n children rderr, Forall P children -> P (Dir n children rderr)) ->
  forall d, P d.
Proof.
  intros HL HD. fix IH 1. intros [n ty | n children rderr].
  - apply HL.
  - apply HD. induction children as [| c cs IHcs]; constructor.
    + apply IH.
    + apply IHcs.
Qed.

Lemma events_Dir path n children rderr :
  events Join path (Dir n children rderr) =
  Met path (Dir n children rderr) ::
    match rderr with Some e => [Broke path e] | None => [] end ++
    eventsList Join path children.
Proof.
  simpl. do 2 f_equal. induction children as [| c cs IH]; simpl; congruence.
Qed.

Lemma walkDir_Dir {S} (fn : string -> walkArg -> S -> S * walkRet)
  path n children rderr st :
  walkDir Join fn path (Dir n children rderr) st =
  match fn path (Visit (Dir n children rderr)) st with
  | (st1, RetNil) =>
      let '(st2, r2) :=
        match rderr with
        | None => (st1, RetNil)
        | Some e => fn path (Failed (Some (Dir n children rderr)) e) st1
        end in
      match r2 with
      | RetNil => walkList Join fn path children st2
      | RetSkipDir => (st2, RetNil)
      | r => (st2, r)
      end
  | (st1, RetSkipDir) => (st1, RetNil)
  | (st1, r) => (st1, r)
  end.
Proof.
  simpl. destruct (fn path (Visit (Dir n children rderr)) st) as [st1 [| | | e]];
    try reflexivity.
  destruct (match rderr with None => _ | Some e => _ end) as [st2 [| | | e]];
    try reflexivity.
  clear. revert st2. induction children as [| c cs IH]; intros st2; simpl.
  - reflexivity.
  - destruct (walkDir Join fn _ c st2) as [st' [| | | e]]; auto.
Qed.

Lemma beforeBroke_app evs1 evs2 :
  beforeBroke (evs1 ++ evs2) =
  match firstBroke evs1 with
  | Some _ => beforeBroke evs1
  | None => evs1 ++ beforeBroke evs2
  end.
Proof.
  induction evs1 as [| [p d | p e] evs1 IH]; simpl; try reflexivity.
  rewrite IH. destruct (firstBroke evs1); reflexivity.
Qed.

Lemma firstBroke_app evs1 evs2 :
  firstBroke (evs1 ++ evs2) =
  match firstBroke evs1 with
  | Some e => Some e
  | None => firstBroke evs2
  end.
Proof.
  induction evs1 as [| [p d | p e] evs1 IH]; simpl; auto.
Qed.

Lemma beforeBroke_all evs : firstBroke evs = None -> beforeBroke evs = evs.
Proof.
  induction evs as [| [p d | p e] evs IH]; simpl; intros H;
    [reflexivity | f_equal; auto | discriminate].
Qed.

Lemma picked_app evs1 evs2 : picked (evs1 ++ evs2) = picked evs1 ++ picked evs2.
Proof. unfold picked. apply flat_map_app. Qed.

Lemma walkFn_Visit path d pdfs :
  walkFn path (Visit d) pdfs = (pdfs ++ picked [Met path d], RetNil).
Proof.
  unfold walkFn, picked, isPdfFile; simpl.
  destruct (IsRegular d && _); simpl; [reflexivity | by rewrite app_nil_r].
Qed.

(** The walk of the source collects the pdf files met before the first
    failure and returns that failure. *)
Lemma walkDir_events d : forall path pdfs,
  walkDir Join walkFn path d pdfs =
  (pdfs ++ picked (beforeBroke (events Join path d)),
   retOf (events Join path d)).
Proof.
  induction d as [n ty | n children rderr IH] using node_rect_list;
    intros path pdfs.
  - cbn [walkDir]. rewrite walkFn_Visit. reflexivity.
  - rewrite walkDir_Dir, walkFn_Visit, events_Dir.
    destruct rderr as [e |].
    + cbn. unfold retOf; cbn. reflexivity.
    + cbn [app beforeBroke]. unfold retOf; cbn [firstBroke app].
      assert (E : forall l, pdfs ++ picked (Met path (Dir n children None) :: l)
                = (pdfs ++ picked [Met path (Dir n children None)]) ++ picked l)
        by (intros l; rewrite <- app_assoc; reflexivity).
      rewrite (E (beforeBroke (eventsList Join path children))). clear E.
      generalize (pdfs ++ picked [Met path (Dir n children None)]).
      clear pdfs. induction IH as [| c cs Hc Hcs IHcs]; intros pdfs.
      * cbn. by rewrite app_nil_r.
      * cbn [walkList eventsList]. rewrite Hc.
        rewrite beforeBroke_app, firstBroke_app. unfold retOf.
        destruct (firstBroke (events Join (Join path (Name c)) c)) as [e |] eqn:Hb.
        -- reflexivity.
        -- rewrite (beforeBroke_all _ Hb), IHcs, picked_app, app_assoc.
           reflexivity.
Qed.

Lemma reachable_Dir path n children rderr :
  reachable Join path (Dir n children rderr) =
  (path, Dir n children rderr) :: reachableList Join path children.
Proof.
  simpl. f_equal. induction children as [| c cs IH]; simpl; congruence.
Qed.

Lemma readable_Dir n children rderr :
  readable (Dir n children rderr) =
  match rderr with Some _ => false | None => true end && readableList children.
Proof.
  reflexivity.
Qed.

Lemma pdfPaths_app es1 es2 : pdfPaths (es1 ++ es2) = pdfPaths es1 ++ pdfPaths es2.
Proof. unfold pdfPaths. by rewrite List.filter_app, map_app. Qed.

(** In a tree whose directories can all be read there is no failure, and
    what is met is what is reachable. *)
Lemma readable_events d : forall path,
  readable d = true ->
  firstBroke (events Join path d) = None /\
  picked (events Join path d) = pdfPaths (reachable Join path d).
Proof.
  induction d as [n ty | n children rderr IH] using node_rect_list;
    intros path Hr.
  - split; [reflexivity |]. cbn. unfold pdfPaths; cbn.
    destruct (isPdfFile (Leaf n ty)); reflexivity.
  - rewrite readable_Dir in Hr. apply andb_true_iff in Hr as [Hn Hcs].
    destruct rderr; [discriminate |].
    rewrite events_Dir, reachable_Dir. cbn [app firstBroke].
    assert (firstBroke (eventsList Join path children) = None /\
            picked (eventsList Join path children)
            = pdfPaths (reachableList Join path children)) as [Hb Hp].
    { clear Hn. induction IH as [| c cs Hc _ IHcs]; [done |].
      cbn in Hcs. apply andb_true_iff in Hcs as [Hrc Hrcs].
      destruct (Hc (Join path (Name c)) Hrc) as [Hb1 Hp1].
      destruct (IHcs Hrcs) as [Hb2 Hp2].
      cbn [eventsList reachableList].
      rewrite firstBroke_app, Hb1, picked_app, pdfPaths_app, Hp1, Hp2. done. }
    split; [exact Hb |].
    change (picked (?e :: ?l)) with (picked [e] ++ picked l).
    change ((?e :: ?l)) with ([e] ++ l) at 2.
    rewrite pdfPaths_app, Hp. reflexivity.
Qed.

(** What the body of the argument loop does with a path argument. *)
Lemma collectArg_path Lstat arg st :
  String.eqb arg "-" = false ->
  collectArg Join Lstat arg st =
  {| stdin := stdin st; stdout := stdout st;
     pdfs := pdfs st ++ picked (beforeBroke (rootEvents Join Lstat arg)) |}.
Proof.
  intros Harg. unfold collectArg, WalkDir, rootEvents. rewrite Harg.
  destruct (Lstat arg) as [d | e].
  - rewrite walkDir_events. unfold retOf.
    destruct (firstBroke _); reflexivity.
  - cbn. by rewrite app_nil_r.
Qed.

(** What it does with the marker: every line is appended. *)
Lemma collectArg_stdin Lstat st :
  pdfs (collectArg Join Lstat "-" st) =
  pdfs st ++ lines (hd noInput (stdin st)).
Proof.
  unfold collectArg; cbn. generalize (pdfs st).
  induction (lines (hd noInput (stdin st))) as [| x xs IH]; intros acc; cbn.
  - by rewrite app_nil_r.
  - rewrite IH, <- app_assoc. reflexivity.
Qed.

End CollectorFacts.

Section CollectorClaims.
Import GoStrings Collector Samples.

(** The other revision's [readLines] keeps the lines that look like a pdf. *)
Lemma readLines_filters stdin :
  fst (Part000.readLines stdin)
  = List.filter Part000.looksLikePdf (lines (hd noInput stdin)).
Proof.
  unfold Part000.readLines; cbn [fst].
  enough (forall xs acc,
    foldl (fun ret text =>
             if Part000.looksLikePdf text then ret ++ [text] else ret) acc xs
    = acc ++ List.filter Part000.looksLikePdf xs) as H by apply H.
  induction xs as [| x xs IH]; intros acc; cbn.
  - by rewrite app_nil_r.
  - rewrite IH. destruct (Part000.looksLikePdf x); cbn; [| reflexivity].
    by rewrite <- app_assoc.
Qed.

(** Standard input that is empty adds nothing and prints nothing. *)
Lemma empty_stdin_adds_nothing Join Lstat st :
  hd noInput (stdin st) = noInput ->
  pdfs (collectArg Join Lstat "-" st) = pdfs st /\
  stdout (collectArg Join Lstat "-" st) = stdout st.
Proof.
  intros H. rewrite collectArg_stdin, H. cbn. rewrite app_nil_r.
  unfold collectArg; cbn. by rewrite H.
Qed.

(** C4, on the code: for the marker argument "-" the loop of [main]
    appends every line the scanner returns. With the two lines notes.txt
    and a.pdf on standard input both become candidates, where the lines
    whose lowercased text ends in ".pdf" are a.pdf alone; [readLines] of
    the other revision keeps a.pdf alone. *)
Theorem stdin_lines_are_not_filtered :
  pdfs (collectArg joinSlash lstat "-" (fresh twoLines))
    = ["notes.txt"; "a.pdf"]
  /\ List.filter (fun s => HasSuffix (ToLower s) ".pdf") ["notes.txt"; "a.pdf"]
    = ["a.pdf"]
  /\ fst (Part000.readLines twoLines) = ["a.pdf"].
Proof. repeat split; vm_compute; reflexivity. Qed.

(** C5 as stated fails: in mixed/ the directory b cannot be read; the
    walk stops there, and the regular file c.pdf, reachable from the
    argument, is not collected. *)
Lemma unreadable_directory_cuts_the_walk :
  pdfs (collectArg joinSlash lstat "mixed" (fresh [])) = ["mixed/a.pdf"]
  /\ pdfPaths (reachable joinSlash "mixed" mixed)
     = ["mixed/a.pdf"; "mixed/c.pdf"]
  /\ pdfs (collectArg joinSlash lstat "mixed" (fresh []))
     <> pdfs (fresh []) ++ pdfPaths (reachable joinSlash "mixed" mixed).
Proof. split_and!; vm_compute; [reflexivity | reflexivity | discriminate]. Qed.

(** C5, amended: for an argument other than "-" whose tree is read
    without error (Lstat of the argument succeeds and every directory is
    read), what the argument adds to the candidates is exactly the paths of the
    entries reachable from it that are regular files with a lowercased
    name ending in ".pdf", in traversal order; a path is added if and only
    if it belongs to such an entry. *)
Theorem walk_collects_the_pdf_files Join Lstat arg root st :
  String.eqb arg "-" = false ->
  Lstat arg = Ok root ->
  readable root = true ->
  pdfs (collectArg Join Lstat arg st)
    = pdfs st ++ pdfPaths (reachable Join arg root)
  /\ forall p, In p (pdfPaths (reachable Join arg root)) <->
       exists d, In (p, d) (reachable Join arg root)
                 /\ IsRegular d = true
                 /\ HasSuffix (ToLower (Name d)) ".pdf" = true.
Proof.
  intros Harg HL Hr. split.
  - rewrite collectArg_path by exact Harg. cbn [pdfs]. f_equal.
    unfold rootEvents. rewrite HL.
    destruct (readable_events Join root arg Hr) as [Hb Hp].
    by rewrite beforeBroke_all.
  - intros p. unfold pdfPaths. rewrite in_map_iff. split.
    + intros [[p' d] [<- Hin]]. apply List.filter_In in Hin as [Hin Hpdf].
      exists d. cbn in *. apply andb_true_iff in Hpdf. tauto.
    + intros (d & Hin & Hreg & Hsuf). exists (p, d). split; [reflexivity |].
      apply List.filter_In. split; [exact Hin |].
      unfold isPdfFile; cbn. by rewrite Hreg, Hsuf.
Qed.

Lemma walk_collects_the_pdf_files_witness :
  pdfs (collectArg joinSlash lstat "docs" (fresh []))
    = [] ++ pdfPaths (reachable joinSlash "docs" docs)
  /\ pdfPaths (reachable joinSlash "docs" docs)
    = ["docs/A.PDF"; "docs/sub/c.pdf"].
Proof.
  split.
  - apply (walk_collects_the_pdf_files joinSlash lstat "docs" docs (fresh []));
      reflexivity.
  - vm_compute. reflexivity.
Defined.

(** C6 as stated fails: in inbox/ the directory a cannot be read and the
    regular file b.pdf lies next to it, outside the failing subtree; the
    walk collects nothing, b.pdf included. *)
Lemma failed_directory_ends_the_walk :
  pdfs (collectArg joinSlash lstat "inbox" (fresh [])) = []
  /\ keptOutsideFailures joinSlash "inbox" inbox = ["inbox/b.pdf"]
  /\ ~ losesOnlyFailedSubtrees joinSlash lstat "inbox" (fresh []).
Proof.
  split; [vm_compute; reflexivity |]. split; [vm_compute; reflexivity |].
  intros H. specialize (H inbox eq_refl). vm_compute in H. discriminate H.
Qed.

(** C6, amended: a traversal error ends the walk of its argument. The
    argument adds the pdf files met before the first failure (an Lstat
    failure of the argument, or a directory that cannot be read) and
    nothing of what comes after it; nothing is printed, and the loop goes
    on with the next argument. *)
Theorem walk_error_ends_the_walk Join Lstat arg rest st :
  String.eqb arg "-" = false ->
  pdfs (collectArg Join Lstat arg st)
    = pdfs st ++ picked (beforeBroke (rootEvents Join Lstat arg))
  /\ stdout (collectArg Join Lstat arg st) = stdout st
  /\ collect Join Lstat (arg :: rest) st
     = collect Join Lstat rest (collectArg Join Lstat arg st).
Proof.
  intros Harg. unfold collect; cbn [foldl].
  rewrite collectArg_path by exact Harg. repeat split; reflexivity.
Qed.

Lemma walk_error_ends_the_walk_witness :
  pdfs (collectArg joinSlash lstat "mixed" (fresh []))
    = [] ++ picked (beforeBroke (rootEvents joinSlash lstat "mixed"))
  /\ stdout (collectArg joinSlash lstat "mixed" (fresh [])) = []
  /\ collect joinSlash lstat ["mixed"; "docs"] (fresh [])
     = collect joinSlash lstat ["docs"]
         (collectArg joinSlash lstat "mixed" (fresh [])).
Proof.
  apply (walk_error_ends_the_walk joinSlash lstat "mixed" ["docs"] (fresh [])).
  reflexivity.
Defined.

(** The walk of mixed/ keeps a.pdf, met before the failure, loses c.pdf,
    and docs is walked all the same. *)
Example mixed_then_docs :
  pdfs (collect joinSlash lstat ["mixed"; "docs"] (fresh []))
  = ["mixed/a.pdf"; "docs/A.PDF"; "docs/sub/c.pdf"].
Proof. vm_compute. reflexivity. Qed.

End CollectorClaims.

(** * Properties of the shuffle *)
Section ShuffleFacts.
Import Rand Shuffle.
Context {A : Type}.

(** A swap of two positions of the slice rearranges it. *)
Lemma swap_in_range (i j : nat) (l : list A) :
  (i < length l)%nat -> (j < length l)%nat ->
  exists l', swap i j l = Some l' /\ l' ≡ₚ l.
Proof.
  intros Hi Hj. unfold swap.
  destruct (lookup_lt_is_Some_2 l i Hi) as [x Hx].
  destruct (lookup_lt_is_Some_2 l j Hj) as [y Hy].
  rewrite Hx, Hy. eexists; split; [reflexivity |].
  by apply Permutation_insert_swap.
Qed.

(** Outside the slice the swap panics. *)
Lemma swap_out_of_range (i j : nat) (l : list A) :
  (length l <= i)%nat -> swap i j l = None.
Proof. intros Hi. unfold swap. by rewrite (lookup_ge_None_2 l i Hi). Qed.

(** The draw for position [i] falls in [[0, i]]. *)
Lemma draw_in_range (i : nat) (v : Z) :
  (Z.to_nat (v mod Z.of_nat (S i)) <= i)%nat.
Proof.
  pose proof (Z.mod_pos_bound v (Z.of_nat (S i)) ltac:(lia)). lia.
Qed.

Lemma shuffleFrom_permutes (i : nat) : forall (r : Rand) (l : list A),
  (i = 0 \/ i < length l)%nat ->
  exists l' r', shuffleFrom i r l = Some (l', r') /\ l' ≡ₚ l.
Proof.
  induction i as [| i IH]; intros r l Hi.
  - exists l, r. by split.
  - destruct Hi as [Hi | Hi]; [discriminate |].
    cbn [shuffleFrom]. unfold Int63.
    set (j := Z.to_nat (_ mod Z.of_nat (S (S i)))).
    assert (j <= S i)%nat as Hj by apply draw_in_range.
    destruct (swap_in_range (S i) j l) as (l1 & -> & Hp1); [lia | lia |].
    destruct (IH {| raw := raw r; used := S (used r) |} l1)
      as (l' & r' & -> & Hp).
    { right. rewrite (Permutation_length Hp1). lia. }
    exists l', r'. split; [reflexivity |]. by rewrite Hp.
Qed.

End ShuffleFacts.

(** C7: the shuffle of the candidate list never panics and returns a
    rearrangement of the list: the same elements with the same numbers of
    occurrences, and the same length. *)
Theorem shuffle_is_a_permutation (r : Rand.Rand) (pdfs : list string) :
  exists pdfs' r',
    Shuffle.shuffle r pdfs = Some (pdfs', r')
    /\ pdfs ≡ₚ pdfs'
    /\ length pdfs' = length pdfs
    /\ forall x, count_occ String.string_dec pdfs' x
                 = count_occ String.string_dec pdfs x.
Proof.
  destruct (shuffleFrom_permutes (length pdfs - 1) r pdfs)
    as (pdfs' & r' & Hs & Hp).
  { destruct pdfs; cbn; [by left | right; lia]. }
  exists pdfs', r'. split; [exact Hs |]. split; [by symmetry |].
  split; [by apply Permutation_length |].
  intros x. by apply Permutation_count_occ.
Qed.

(** * Properties of the server *)
Section ServerFacts.
Import Server.


(** Whatever happens, what was handed over is a prefix of the buffer. *)
Lemma writeLoop_prefix script : forall buf sent,
  exists k, fst (writeLoop buf script sent) = sent ++ take k buf.
Proof.
  induction script as [| [n [e |]] script IH]; intros buf sent;
    destruct buf as [| b buf]; cbn [writeLoop fst].
  1, 2, 3, 5: exists 0%nat; cbn; by rewrite app_nil_r.
  - by exists n.
  - destruct (n <=? length (b :: buf))%nat eqn:Hn.
    + destruct (IH (drop n (b :: buf)) (sent ++ take n (b :: buf))) as [k ->].
      exists (n + k)%nat. rewrite <- app_assoc. f_equal.
      by rewrite take_take_drop.
    + exists (length (b :: buf)). by rewrite take_ge.
Qed.

(** The decimal rendering of a length determines the length. *)
Lemma Itoa_inj n m : Itoa n = Itoa m -> n = m.
Proof. unfold Itoa. apply (inj pretty). Qed.

(** The handler on a request for another path. *)
Lemma handler_other_path filename buf wg x :
  urlPath x <> "/" +:+ filename ->
  handler filename buf wg x
  = {| resp := notFound; how := NotFound; wgAfter := wg; said := [] |}.
Proof.
  intros Hp. unfold handler.
  destruct (String.eqb_spec (urlPath x) ("/" +:+ filename)); [done |].
  reflexivity.
Qed.

(** The handler on a request for the expected path. *)
Lemma handler_expected_path filename buf wg x :
  urlPath x = "/" +:+ filename ->
  status (resp (handler filename buf wg x)) = 200
  /\ header (resp (handler filename buf wg x)) !! "Content-Type"
     = Some "application/pdf"
  /\ header (resp (handler filename buf wg x)) !! "Content-Length"
     = Some (Itoa (length buf))
  /\ body (resp (handler filename buf wg x))
     = fst (writeLoop buf (writes x) [])
  /\ wgAfter (handler filename buf wg x)
     = (if isCompleted (snd (writeLoop buf (writes x) []))
        then wg - 1 else wg)
  /\ (snd (writeLoop buf (writes x) []) <> Completed ->
      how (handler filename buf wg x) = snd (writeLoop buf (writes x) [])).
Proof.
  intros Hp. unfold handler. rewrite Hp, String.eqb_refl. cbn [negb].
  destruct (writeLoop buf (writes x) []) as [sent e].
  destruct e; cbn; repeat split; try done.
Qed.

End ServerFacts.

Section ServerClaims.
Import Server Driver Samples.

(** Requests that do not complete leave the counter and the wait alone. *)
Lemma serve_without_completion filename buf xs : forall s,
  Forall (fun x => urlPath x = "/" +:+ filename ->
                   isCompleted (snd (writeLoop buf (writes x) [])) = false) xs ->
  wg (serve filename buf xs s) = wg s
  /\ releases (serve filename buf xs s) = releases s.
Proof.
  induction xs as [| x xs IH]; intros s Hxs; [done |].
  apply Forall_cons in Hxs as [Hx Hxs]. cbn [serve foldl].
  fold (serve filename buf xs (serve1 filename buf s x)).
  destruct (IH (serve1 filename buf s x) Hxs) as [-> ->].
  unfold serve1; cbn [wg releases].
  destruct (decide (urlPath x = "/" +:+ filename)) as [Hp | Hp].
  - destruct (handler_expected_path filename buf (wg s) x Hp)
      as (_ & _ & _ & _ & Hwg & Hhow).
    specialize (Hx Hp). rewrite Hx in Hwg. rewrite Hwg. split; [done |].
    rewrite Hhow; [by rewrite Hx, andb_false_r |].
    intros Hc. by rewrite Hc in Hx.
  - rewrite (handler_other_path filename buf (wg s) x Hp). cbn.
    by rewrite andb_false_r.
Qed.




(** C1, on the code: the handler has no memory of having served the
    document, and the server is never closed. Two requests for
    /report.pdf that are both served before the process exits both get
    the whole document; the second call of [wg.Done()] drives the counter
    to -1 and panics. *)
Theorem document_served_twice :
  map (fun h => (status (resp h), body (resp h), how h))
    (answers (serve "report.pdf" reportBytes
                [get "/report.pdf" (length reportBytes);
                 get "/report.pdf" (length reportBytes)] started))
  = [(200, reportBytes, Completed); (200, reportBytes, Crashed)]
  /\ wg (serve "report.pdf" reportBytes
           [get "/report.pdf" (length reportBytes);
            get "/report.pdf" (length reportBytes)] started) = -1.
Proof. split; vm_compute; reflexivity. Qed.

End ServerClaims.

(** * Properties of the driver *)
Section DriverFacts.
Import Rand Server Driver.

(** A draw that returns was asked for a positive bound and stays below it. *)
Lemma Intn_range n r v r' :
  Intn n r = Some (v, r') -> 0 < n /\ 0 <= v < n.
Proof.
  unfold Intn, Int63. destruct (Z.leb_spec n 0) as [Hn | Hn]; [discriminate |].
  intros [= <- _]. split; [exact Hn |]. by apply Z.mod_pos_bound.
Qed.

(** A draw panics exactly when the bound is not positive. *)
Lemma Intn_panics n r : Intn n r = None <-> n <= 0.
Proof.
  unfold Intn, Int63. destruct (Z.leb_spec n 0) as [Hn | Hn]; split;
    try done; lia.
Qed.

(** [open] starts at most one server and closes none; when it returns nil
    or waits, it has started one. *)
Lemma open_servers w path page p :
  match snd (open w path page p) with
  | OpenFailed _ =>
      servers (fst (open w path page p)) = servers p
      \/ exists srv, servers (fst (open w path page p)) = servers p ++ [srv]
  | _ => exists srv, servers (fst (open w path page p)) = servers p ++ [srv]
  end.
Proof.
  unfold open. destruct (ReadFile w path) as [buf | e]; cbn; [| by left].
  destruct (Listen w (listens p)) as [port | e]; cbn; [| by left].
  destruct (Run w _) as [e |]; cbn; [right; by eexists |].
  destruct (waitReturns _); cbn; by eexists.
Qed.

(** The trace of a run is a sequence of attempts. *)
Lemma drive_attempts w pdfs : forall p,
  attempts (servers p) (snd (fst (drive w pdfs p)))
    (servers (fst (fst (drive w pdfs p)))).
Proof.
  induction pdfs as [| path pdfs IH]; intros p; cbn [drive].
  - cbn. constructor.
  - destruct (countPages w path) as [nPages | e]; [| apply IH].
    destruct (Intn nPages (rnd p)) as [[v r'] |]; [| cbn; constructor].
    set (p1 := {| rnd := r'; out := out p; listens := listens p;
                  servers := servers p |}).
    pose proof (open_servers w path (v + 1) p1) as Hs.
    destruct (open w path (v + 1) p1) as [p2 [| err |]]; cbn in Hs.
    + destruct Hs as [srv Hs]. cbn. rewrite Hs. constructor.
    + specialize (IH p2).
      destruct (drive w pdfs p2) as [[p3 t] e]. cbn in IH |- *.
      econstructor; [exact Hs | exact IH].
    + destruct Hs as [srv Hs]. cbn. rewrite Hs. constructor.
Qed.

(** Every call of [open] in a run carries a page of the document. *)
Lemma drive_pages w pdfs : forall p path nPages page live,
  Call path nPages page live ∈ snd (fst (drive w pdfs p)) ->
  countPages w path = Ok nPages /\ 1 <= page <= nPages.
Proof.
  induction pdfs as [| path0 pdfs IH]; intros p path nPages page live;
    cbn [drive].
  - cbn. by intros ?%elem_of_nil.
  - destruct (countPages w path0) as [n | e] eqn:Hc; [| apply IH].
    destruct (Intn n (rnd p)) as [[v r'] |] eqn:Hi;
      [| cbn; by intros ?%elem_of_nil].
    apply Intn_range in Hi as [Hn Hv].
    destruct (open w path0 (v + 1) _) as [p2 [| err |]].
    + cbn. intros Hin. apply elem_of_cons in Hin as [[= -> -> -> ->] | Hin].
      * split; [exact Hc | lia].
      * apply elem_of_cons in Hin as [? | ?%elem_of_nil]; done.
    + specialize (IH p2 path nPages page live).
      destruct (drive w pdfs p2) as [[p3 t] e]. cbn in IH |- *.
      intros Hin. apply elem_of_cons in Hin as [[= -> -> -> ->] | Hin].
      * split; [exact Hc | lia].
      * apply elem_of_cons in Hin as [? | Hin]; [done | by apply IH].
    + cbn. intros Hin. apply elem_of_cons in Hin as [[= -> -> -> ->] | Hin].
      * split; [exact Hc | lia].
      * by apply elem_of_nil in Hin.
Qed.

(** Servers are only ever added: every call of a run is made with the
    servers that were up at its start still up, and so is its end. *)
Lemma drive_live w pdfs : forall p,
  servers p `prefix_of` servers (fst (fst (drive w pdfs p)))
  /\ forall path nPages page live,
       Call path nPages page live ∈ snd (fst (drive w pdfs p)) ->
       servers p `prefix_of` live.
Proof.
  induction pdfs as [| path0 pdfs IH]; intros p; cbn [drive].
  - cbn. split; [done |]. by intros ? ? ? ? ?%elem_of_nil.
  - destruct (countPages w path0) as [n | e]; [| apply IH].
    destruct (Intn n (rnd p)) as [[v r'] |];
      [| cbn; split; [done | by intros ? ? ? ? ?%elem_of_nil]].
    set (p1 := {| rnd := r'; out := out p; listens := listens p;
                  servers := servers p |}).
    pose proof (open_servers w path0 (v + 1) p1) as Hs.
    assert (servers p `prefix_of` servers (fst (open w path0 (v + 1) p1)))
      as Hgrow.
    { destruct (snd (open w path0 (v + 1) p1)); cbn in Hs.
      - destruct Hs as [srv ->]. by apply prefix_app_r.
      - destruct Hs as [-> | [srv ->]]; [done | by apply prefix_app_r].
      - destruct Hs as [srv ->]. by apply prefix_app_r. }
    clear Hs. destruct (open w path0 (v + 1) p1) as [p2 [| err |]];
      cbn in Hgrow.
    + cbn. split; [done |]. intros path nPages page live Hin.
      apply elem_of_cons in Hin as [[= _ _ _ ->] | Hin]; [done |].
      apply elem_of_cons in Hin as [? | ?%elem_of_nil]; done.
    + destruct (IH p2) as [Hend Hcalls].
      destruct (drive w pdfs p2) as [[p3 t] e]. cbn in Hend, Hcalls |- *.
      split; [by etrans |]. intros path nPages page live Hin.
      apply elem_of_cons in Hin as [[= _ _ _ ->] | Hin]; [done |].
      apply elem_of_cons in Hin as [? | Hin]; [done |].
      etrans; [exact Hgrow | by eapply Hcalls].
    + cbn. split; [done |]. intros path nPages page live Hin.
      apply elem_of_cons in Hin as [[= _ _ _ ->] | Hin]; [done |].
      by apply elem_of_nil in Hin.
Qed.

End DriverFacts.

Section DriverClaims.
Import Rand Server Driver Samples.

(** A connection that takes the whole buffer at once completes the loop. *)
Lemma writeLoop_at_once buf :
  writeLoop buf [(length buf, None)] [] = (buf, Completed).
Proof.
  destruct buf as [| b buf]; [reflexivity |]. cbn [writeLoop].
  rewrite Nat.leb_refl, drop_all, take_ge by done. reflexivity.
Qed.

(** C3: every call [open(path, page)] the driver makes is for a candidate
    whose page count [nPages] was read without error and is at least one,
    and the page passed lies in [[1, nPages]]; with one page it is page 1. *)
Theorem page_is_within_the_document w pdfs p path nPages page live :
  Call path nPages page live ∈ snd (fst (drive w pdfs p)) ->
  countPages w path = Ok nPages
  /\ 1 <= nPages
  /\ 1 <= page <= nPages
  /\ (nPages = 1 -> page = 1).
Proof.
  intros Hin. destruct (drive_pages w pdfs p path nPages page live Hin)
    as [Hc Hr].
  repeat split; try done; lia.
Qed.

Lemma page_is_within_the_document_witness :
  countPages twoAttempts "b.pdf" = Ok 3
  /\ 1 <= 3
  /\ 1 <= 1 <= 3
  /\ (3 = 1 -> 1 = 1).
Proof.
  apply (page_is_within_the_document twoAttempts ["a.pdf"; "b.pdf"] boot
           "b.pdf" 3 1
           [{| port := 40000; filename := "a.pdf"; doc := aBytes |}]).
  vm_compute. do 2 apply list_elem_of_further. apply list_elem_of_here.
Defined.

(** A candidate with a page count of at least one at the head of the list
    is passed to [open], with the servers that are up. *)
Lemma head_candidate_is_opened w path rest p nPages :
  countPages w path = Ok nPages -> 1 <= nPages ->
  exists page t,
    snd (fst (drive w (path :: rest) p))
    = Call path nPages page (servers p) :: t.
Proof.
  intros Hc Hn. cbn [drive]. rewrite Hc.
  destruct (Intn nPages (rnd p)) as [[v r'] |] eqn:Hi.
  - destruct (open w path (v + 1) _) as [p2 [| err |]].
    + by eexists _, _.
    + destruct (drive w rest p2) as [[p3 t] e]. by eexists _, _.
    + by eexists _, _.
  - apply Intn_panics in Hi. lia.
Qed.

(** C10: a candidate whose page count is read without error as zero (or
    less) makes the draw panic: the run ends there, whatever candidates
    remain. Only a lookup that returns an error is skipped. *)
Theorem zero_pages_panics w path rest p :
  (forall n, countPages w path = Ok n -> n <= 0 ->
             drive w (path :: rest) p = (p, [], Panic))
  /\ (forall e, countPages w path = Err e ->
                drive w (path :: rest) p = drive w rest p).
Proof.
  split.
  - intros n Hc Hn. cbn [drive]. rewrite Hc.
    apply Intn_panics with (r := rnd p) in Hn. by rewrite Hn.
  - intros e Hc. cbn [drive]. by rewrite Hc.
Qed.

Lemma zero_pages_panics_witness :
  drive twoAttempts ["empty.pdf"; "b.pdf"] boot = (boot, [], Panic)
  /\ drive twoAttempts ["corrupt.pdf"; "b.pdf"] boot
     = drive twoAttempts ["b.pdf"] boot.
Proof.
  split.
  - apply (zero_pages_panics twoAttempts "empty.pdf" ["b.pdf"] boot) with 0;
      [reflexivity | lia].
  - apply (zero_pages_panics twoAttempts "corrupt.pdf" ["b.pdf"] boot)
      with "pdfcpu: not a pdf".
    reflexivity.
Defined.

(** b.pdf alone, or behind a file pdfcpu rejects, is opened. *)
Example good_candidate_exits_0 :
  snd (drive twoAttempts ["b.pdf"] boot) = Exit 0
  /\ snd (drive twoAttempts ["corrupt.pdf"; "b.pdf"] boot) = Exit 0.
Proof. split; vm_compute; reflexivity. Qed.

(** With no pdf among the arguments the program says so and exits 1. *)
Example nothing_to_open :
  out (fst (fst (main twoAttempts ["nowhere"] [] seed)))
    = ["Could not find a usable PDF"]
  /\ snd (main twoAttempts ["nowhere"] [] seed) = Exit 1.
Proof. split; vm_compute; reflexivity. Qed.

(** A broken pipe on the only request leaves the process waiting. *)
Example broken_pipe_hangs :
  snd (drive brokenPipe ["b.pdf"] boot) = Hang.
Proof. vm_compute. reflexivity. Qed.

(** C9 as stated fails: the viewer cannot be launched for a.pdf, [open]
    returns the error with its server still listening, and the call of
    [open] for b.pdf is made while that server is up; asked for /a.pdf, it
    still answers with the whole of a.pdf. *)
Lemma second_attempt_beside_first_server :
  snd (fst (drive twoAttempts ["a.pdf"; "b.pdf"] boot))
  = [ Call "a.pdf" 3 3 [];
      Return (Some "exit status 1");
      Call "b.pdf" 3 1 [{| port := 40000; filename := "a.pdf"; doc := aBytes |}];
      Return None ]
  /\ fullServe aBytes
       (handler "a.pdf" aBytes 1 (get "/a.pdf" (length aBytes)))
  /\ ~ neverTwoServers (snd (fst (drive twoAttempts ["a.pdf"; "b.pdf"] boot))).
Proof.
  split; [vm_compute; reflexivity |]. split; [split; reflexivity |].
  intros H.
  assert ([{| port := 40000; filename := "a.pdf"; doc := aBytes |}] = [])
    as Hnone; [| discriminate Hnone].
  apply (H "b.pdf" 3 1).
  vm_compute. do 2 apply list_elem_of_further. apply list_elem_of_here.
Qed.

(** C9, amended: the driver makes one attempt after the other: a call of
    [open] that returns an error is over before the next candidate is
    tried, and a call that returns nil or never returns is the last one.
    But no server is ever closed. When the file was read and the port
    bound and the viewer then cannot be launched, [open] returns the error
    with its server left listening: that server is among the servers up
    at every later call of [open] and at the end of the run, and a request
    for its document still gets the whole document, whatever the counter. *)
Theorem attempts_run_one_after_the_other w :
  (forall pdfs p,
     attempts (servers p) (snd (fst (drive w pdfs p)))
       (servers (fst (fst (drive w pdfs p)))))
  /\ (forall path rest p nPages v r' buf port err,
        countPages w path = Ok nPages ->
        Intn nPages (rnd p) = Some (v, r') ->
        ReadFile w path = Ok buf ->
        Listen w (listens p) = Ok port ->
        Run w (urlOf w port (Base w path) (v + 1)) = Some err ->
        open w path (v + 1)
          {| rnd := r'; out := out p; listens := listens p;
             servers := servers p |}
        = ({| rnd := r'; out := out p; listens := S (listens p);
              servers := servers p ++
                [{| port := port; filename := Base w path; doc := buf |}] |},
           OpenFailed err)
        /\ drive w (path :: rest) p
           = (fst (fst (drive w rest
                {| rnd := r'; out := out p; listens := S (listens p);
                   servers := servers p ++
                     [{| port := port; filename := Base w path;
                         doc := buf |}] |})),
              Call path nPages (v + 1) (servers p) :: Return (Some err) ::
                snd (fst (drive w rest
                  {| rnd := r'; out := out p; listens := S (listens p);
                     servers := servers p ++
                       [{| port := port; filename := Base w path;
                           doc := buf |}] |})),
              snd (drive w rest
                {| rnd := r'; out := out p; listens := S (listens p);
                   servers := servers p ++
                     [{| port := port; filename := Base w path;
                         doc := buf |}] |}))
        /\ (forall path' nPages' page' live,
              Call path' nPages' page' live
                ∈ snd (fst (drive w rest
                    {| rnd := r'; out := out p; listens := S (listens p);
                       servers := servers p ++
                         [{| port := port; filename := Base w path;
                             doc := buf |}] |})) ->
              {| port := port; filename := Base w path; doc := buf |} ∈ live)
        /\ {| port := port; filename := Base w path; doc := buf |}
             ∈ servers (fst (fst (drive w (path :: rest) p)))
        /\ forall wg,
             fullServe buf
               (handler (Base w path) buf wg
                  {| urlPath := "/" +:+ Base w path;
                     writes := [(length buf, None)] |})).
Proof.
  split; [intros pdfs p; apply drive_attempts |].
  intros path rest p nPages v r' buf port err Hc Hi Hread Hlisten Hrun.
  set (srv := {| port := port; filename := Base w path; doc := buf |}).
  set (p1 := {| rnd := r'; out := out p; listens := listens p;
                servers := servers p |}).
  set (p2 := {| rnd := r'; out := out p; listens := S (listens p);
                servers := servers p ++ [srv] |}).
  assert (open w path (v + 1) p1 = (p2, OpenFailed err)) as Hopen.
  { unfold open. cbn [listens p1]. by rewrite Hread, Hlisten, Hrun. }
  assert (drive w (path :: rest) p
          = (fst (fst (drive w rest p2)),
             Call path nPages (v + 1) (servers p) :: Return (Some err) ::
               snd (fst (drive w rest p2)),
             snd (drive w rest p2))) as Hdrive.
  { cbn [drive]. rewrite Hc, Hi. fold p1. rewrite Hopen.
    by destruct (drive w rest p2) as [[p3 t] e]. }
  destruct (drive_live w rest p2) as [Hend Hcalls].
  assert (forall live, servers p2 `prefix_of` live -> srv ∈ live) as Hin.
  { intros live [k ->]. cbn [servers p2]. set_solver. }
  split_and!.
  - exact Hopen.
  - exact Hdrive.
  - intros path' nPages' page' live Hcall. apply Hin. by eapply Hcalls.
  - rewrite Hdrive. cbn [fst]. by apply Hin.
  - intros wg.
    destruct (handler_expected_path (Base w path) buf wg
                {| urlPath := "/" +:+ Base w path;
                   writes := [(length buf, None)] |} eq_refl)
      as (Hs & _ & _ & Hb & _).
    split; [exact Hs |]. rewrite Hb. cbn [writes].
    by rewrite writeLoop_at_once.
Qed.

Lemma attempts_run_one_after_the_other_witness :
  open twoAttempts "a.pdf" (2 + 1)
    {| rnd := {| raw := raw seed; used := 1 |}; out := []; listens := O;
       servers := [] |}
  = ({| rnd := {| raw := raw seed; used := 1 |}; out := [];
        listens := 1;
        servers := [] ++
          [{| port := 40000; filename := "a.pdf"; doc := aBytes |}] |},
     OpenFailed "exit status 1")
  /\ {| port := 40000; filename := "a.pdf"; doc := aBytes |}
       ∈ servers (fst (fst (drive twoAttempts ["a.pdf"; "b.pdf"] boot))).
Proof.
  destruct (attempts_run_one_after_the_other twoAttempts) as [_ Hleft].
  destruct (Hleft "a.pdf" ["b.pdf"] boot 3 2
              {| raw := raw seed; used := 1 |} aBytes 40000 "exit status 1")
    as (Hopen & _ & _ & Hend & _); try reflexivity.
  split; [exact Hopen | exact Hend].
Defined.

End DriverClaims.

(** * Further properties: the suffix test *)
Section SuffixFacts.
Import GoStrings.

Lemma ToLower_app s t : ToLower (s +:+ t) = ToLower s +:+ ToLower t.
Proof. induction s as [| c s IH]; simpl; [reflexivity | by rewrite IH]. Qed.

Lemma ToLower_length s : String.length (ToLower s) = String.length s.
Proof. induction s as [| c s IH]; cbn; [reflexivity | by rewrite IH]. Qed.

(** A lowered string cut in two comes from the string cut at the same place. *)
Lemma ToLower_split a : forall s b,
  ToLower s = a +:+ b ->
  exists s1 s2, s = s1 +:+ s2 /\ ToLower s1 = a /\ ToLower s2 = b.
Proof.
  induction a as [| c a IH]; intros s b H.
  - by exists EmptyString, s.
  - destruct s as [| c' s]; [discriminate |]. simpl in H.
    injection H as Hc H. destruct (IH s b H) as (s1 & s2 & -> & <- & <-).
    exists (String c' s1), s2. simpl. by rewrite Hc.
Qed.

Lemma substring_all s : String.substring 0 (String.length s) s = s.
Proof. induction s as [| c s IH]; cbn; [reflexivity | by rewrite IH]. Qed.

Lemma length_append s t :
  String.length (s +:+ t) = (String.length s + String.length t)%nat.
Proof. induction s as [| c s IH]; simpl; [reflexivity | by rewrite IH]. Qed.

Lemma tail_from_app pre suf : tail_from (pre +:+ suf) (String.length pre) = suf.
Proof.
  unfold tail_from. rewrite length_append.
  replace (String.length pre + String.length suf - String.length pre)%nat
    with (String.length suf) by lia.
  induction pre as [| c pre IH]; simpl; [apply substring_all | exact IH].
Qed.

Lemma split_at_tail s : forall k, (k <= String.length s)%nat ->
  exists pre, s = pre +:+ tail_from s k /\ String.length pre = k.
Proof.
  unfold tail_from. induction s as [| c s IH]; intros k Hk.
  - exists EmptyString. cbn in Hk. by replace k with 0%nat by lia.
  - destruct k as [| k].
    + exists EmptyString. split; [| reflexivity].
      cbn [String.append]. change (String.length (String c s) - 0)%nat
        with (String.length (String c s)). by rewrite substring_all.
    + cbn in Hk. destruct (IH k ltac:(lia)) as (pre & Hpre & Hlen).
      exists (String c pre). split; [| simpl; by rewrite Hlen].
      change (String c s = String c (pre +:+ String.substring k
                (String.length s - k) s)).
      f_equal. exact Hpre.
Qed.

(** [HasSuffix] says that the string ends with the suffix. *)
Lemma HasSuffix_spec s suffix :
  HasSuffix s suffix = true <-> exists pre, s = pre +:+ suffix.
Proof.
  unfold HasSuffix. rewrite andb_true_iff, Nat.leb_le, String.eqb_eq. split.
  - intros [Hlen Htail].
    destruct (split_at_tail s (String.length s - String.length suffix)
                ltac:(lia)) as (pre & Hpre & _).
    exists pre. by rewrite Htail in Hpre.
  - intros [pre ->]. rewrite length_append. split; [lia |].
    replace (String.length pre + String.length suffix - String.length suffix)%nat
      with (String.length pre) by lia.
    apply tail_from_app.
Qed.

End SuffixFacts.

(** X1: a name looks like a pdf exactly when it ends in an extension that
    is ".pdf" once lowered: ".pdf", ".PDF", ".Pdf", and so on, after any
    stem, the empty one included. *)
Theorem looksLikePdf_iff_extension s :
  Part000.looksLikePdf s = true <->
  exists stem ext, s = stem +:+ ext /\ GoStrings.ToLower ext = ".pdf".
Proof.
  unfold Part000.looksLikePdf. rewrite HasSuffix_spec. split.
  - intros [pre H]. apply ToLower_split in H as (s1 & s2 & -> & _ & H2).
    by exists s1, s2.
  - intros (stem & ext & -> & Hext). exists (GoStrings.ToLower stem).
    by rewrite ToLower_app, Hext.
Qed.

(** * Further properties: the collector *)
Section CollectorMore.
Import GoStrings Collector Samples.

Lemma isPdfFile_iff d :
  isPdfFile d = true <->
  IsRegular d = true
  /\ exists stem ext, Name d = stem +:+ ext /\ ToLower ext = ".pdf".
Proof.
  unfold isPdfFile. rewrite andb_true_iff.
  change (HasSuffix (ToLower (Name d)) ".pdf")
    with (Part000.looksLikePdf (Name d)).
  split; intros [Hr Hs]; (split; [exact Hr |]).
  - destruct (proj1 (HasSuffix_spec _ _) Hs) as [pre H].
    apply ToLower_split in H as (s1 & s2 & -> & _ & H2). by exists s1, s2.
  - destruct Hs as (stem & ext & -> & Hext).
    apply HasSuffix_spec. exists (ToLower stem). by rewrite ToLower_app, Hext.
Qed.

(** The pdf files met are the pdf files reachable, failures or not. *)
Lemma picked_events Join d : forall path,
  picked (events Join path d) = pdfPaths (reachable Join path d).
Proof.
  induction d as [n ty | n children rderr IH] using node_rect_list;
    intros path.
  - cbn. unfold pdfPaths; cbn. destruct (isPdfFile (Leaf n ty)); reflexivity.
  - rewrite events_Dir, reachable_Dir.
    change (picked (?e :: ?l)) with (picked [e] ++ picked l).
    change (pdfPaths (?e :: ?l)) with (pdfPaths ([e] ++ l)).
    rewrite picked_app, pdfPaths_app.
    assert (picked (match rderr with Some e => [Broke path e] | None => [] end)
            = []) as -> by (by destruct rderr).
    cbn [app]. f_equal.
    induction IH as [| c cs Hc _ IHcs]; [done |].
    cbn [eventsList reachableList].
    by rewrite picked_app, pdfPaths_app, Hc, IHcs.
Qed.

Lemma beforeBroke_prefix evs : exists rest, evs = beforeBroke evs ++ rest.
Proof.
  induction evs as [| [p d | p e] evs [rest IH]].
  - by exists [].
  - exists rest. cbn. by rewrite <- IH.
  - by eexists.
Qed.

Lemma state_eta (st : state) :
  {| stdin := stdin st; stdout := stdout st; pdfs := pdfs st |} = st.
Proof. by destruct st. Qed.

End CollectorMore.

(** X2: on an entry the callback of the walk appends the path exactly when
    the entry is a regular file whose name ends in an extension that
    lowers to ".pdf"; in every other case the list is left as it is. It
    returns nil either way, so such an entry never stops the walk. *)
Theorem callback_keeps_regular_pdf_entries path d pdfs :
  (Collector.IsRegular d = true
   /\ (exists stem ext, Collector.Name d = stem +:+ ext
                        /\ GoStrings.ToLower ext = ".pdf") ->
   Collector.walkFn path (Collector.Visit d) pdfs
   = (pdfs ++ [path], Collector.RetNil))
  /\ (~ (Collector.IsRegular d = true
         /\ exists stem ext, Collector.Name d = stem +:+ ext
                             /\ GoStrings.ToLower ext = ".pdf") ->
      Collector.walkFn path (Collector.Visit d) pdfs
      = (pdfs, Collector.RetNil)).
Proof.
  rewrite <- isPdfFile_iff. unfold Collector.walkFn, Collector.isPdfFile.
  cbn zeta. split; intros H.
  - by rewrite H.
  - by destruct (Collector.IsRegular d && _).
Qed.

Lemma callback_keeps_regular_pdf_entries_witness :
  Collector.walkFn "docs/A.PDF"
    (Collector.Visit (Collector.Leaf "A.PDF" Collector.Regular)) []
  = ([] ++ ["docs/A.PDF"], Collector.RetNil)
  /\ Collector.walkFn "docs/link.pdf"
       (Collector.Visit (Collector.Leaf "link.pdf" Collector.Symlink)) []
     = ([], Collector.RetNil).
Proof.
  split.
  - apply (callback_keeps_regular_pdf_entries "docs/A.PDF"
             (Collector.Leaf "A.PDF" Collector.Regular) []).
    split; [reflexivity | by exists "A", ".PDF"].
  - apply (callback_keeps_regular_pdf_entries "docs/link.pdf"
             (Collector.Leaf "link.pdf" Collector.Symlink) []).
    intros [H _]. discriminate H.
Defined.

(** X3: arguments that are paths contribute one after the other, in the
    order of the command line, each what its own walk finds whatever the
    others found: nothing is merged or removed, so an argument given twice
    contributes twice. Nothing is printed and standard input is not read. *)
Theorem path_arguments_concatenate Join Lstat args st :
  Forall (fun arg => String.eqb arg "-" = false) args ->
  Collector.collect Join Lstat args st
  = {| Collector.stdin := Collector.stdin st;
       Collector.stdout := Collector.stdout st;
       Collector.pdfs :=
         Collector.pdfs st ++
         flat_map (fun arg =>
                     Collector.pdfs
                       (Collector.collectArg Join Lstat arg
                          {| Collector.stdin := []; Collector.stdout := [];
                             Collector.pdfs := [] |})) args |}.
Proof.
  intros Hargs. revert st.
  induction Hargs as [| arg args Harg _ IH]; intros st.
  - cbn. rewrite app_nil_r. symmetry. apply state_eta.
  - unfold Collector.collect in *. cbn [foldl flat_map]. rewrite IH.
    rewrite !collectArg_path by exact Harg. cbn.
    by rewrite <- app_assoc.
Qed.

Lemma path_arguments_concatenate_witness :
  Collector.collect Samples.joinSlash Samples.lstat ["docs"; "docs"]
    (Samples.fresh [])
  = {| Collector.stdin := []; Collector.stdout := [];
       Collector.pdfs :=
         [] ++
         flat_map (fun arg =>
                     Collector.pdfs
                       (Collector.collectArg Samples.joinSlash Samples.lstat
                          arg
                          {| Collector.stdin := []; Collector.stdout := [];
                             Collector.pdfs := [] |})) ["docs"; "docs"] |}.
Proof.
  apply (path_arguments_concatenate Samples.joinSlash Samples.lstat
           ["docs"; "docs"] (Samples.fresh [])).
  repeat constructor.
Defined.

(** X4: whatever errors a walk meets, what it collects is an initial part
    of the pdf files reachable from the argument, in traversal order: an
    error can only cut the list short, never add, drop from the middle or
    reorder. *)
Theorem walk_collects_an_initial_part Join Lstat arg root st :
  String.eqb arg "-" = false ->
  Lstat arg = Ok root ->
  exists got missed,
    Collector.pdfs (Collector.collectArg Join Lstat arg st)
    = Collector.pdfs st ++ got
    /\ Collector.pdfPaths (Collector.reachable Join arg root) = got ++ missed.
Proof.
  intros Harg HL. rewrite collectArg_path by exact Harg. cbn.
  unfold Collector.rootEvents. rewrite HL.
  destruct (beforeBroke_prefix (Collector.events Join arg root))
    as [rest Hrest].
  exists (Collector.picked (Collector.beforeBroke
                              (Collector.events Join arg root))),
         (Collector.picked rest).
  split; [reflexivity |].
  by rewrite <- picked_events, <- picked_app, <- Hrest.
Qed.

Lemma walk_collects_an_initial_part_witness :
  exists got missed,
    Collector.pdfs (Collector.collectArg Samples.joinSlash Samples.lstat
                      "mixed" (Samples.fresh []))
    = [] ++ got
    /\ Collector.pdfPaths
         (Collector.reachable Samples.joinSlash "mixed" Samples.mixed)
       = got ++ missed.
Proof.
  apply (walk_collects_an_initial_part Samples.joinSlash Samples.lstat
           "mixed" Samples.mixed (Samples.fresh [])); reflexivity.
Defined.

(** X5: an argument that cannot be examined (Lstat fails: no such file,
    no permission) leaves the collector exactly as it was: no candidate,
    no output, no crash. *)
Theorem missing_argument_is_ignored Join Lstat arg st e :
  String.eqb arg "-" = false ->
  Lstat arg = Err e ->
  Collector.collectArg Join Lstat arg st = st.
Proof.
  intros Harg HL. rewrite collectArg_path by exact Harg.
  unfold Collector.rootEvents. rewrite HL. cbn. rewrite app_nil_r.
  apply state_eta.
Qed.

Lemma missing_argument_is_ignored_witness :
  Collector.collectArg Samples.joinSlash Samples.lstat "nowhere"
    (Samples.fresh Samples.twoLines)
  = Samples.fresh Samples.twoLines.
Proof.
  apply (missing_argument_is_ignored Samples.joinSlash Samples.lstat "nowhere"
           (Samples.fresh Samples.twoLines) "no such file or directory");
    reflexivity.
Defined.

(** X6: candidates already collected are never lost: after any further
    arguments, markers included, the list starts with what it held. *)
Theorem collected_candidates_stay Join Lstat args st :
  exists added,
    Collector.pdfs (Collector.collect Join Lstat args st)
    = Collector.pdfs st ++ added.
Proof.
  revert st. induction args as [| arg args IH]; intros st.
  - exists []. cbn. by rewrite app_nil_r.
  - unfold Collector.collect in *. cbn [foldl].
    destruct (IH (Collector.collectArg Join Lstat arg st)) as [added ->].
    destruct (String.eqb arg "-") eqn:Harg.
    + apply String.eqb_eq in Harg as ->. rewrite collectArg_stdin.
      eexists. by rewrite <- app_assoc.
    + rewrite collectArg_path by exact Harg. cbn.
      eexists. by rewrite <- app_assoc.
Qed.

(** * Further properties: the collector of the later revision *)
Section LaterCollector.
Import GoStrings Collector.

Lemma filter_sublist {A} (f : A -> bool) (l : list A) :
  List.filter f l `sublist_of` l.
Proof.
  induction l as [| x l IH]; cbn; [constructor |].
  destruct (f x); by constructor.
Qed.

Lemma walkForPdfs_picked Join Lstat arg :
  Part000Collect.walkForPdfs Join Lstat arg
  = picked (beforeBroke (rootEvents Join Lstat arg)).
Proof.
  unfold Part000Collect.walkForPdfs.
  change (@Part000Collect.walkFn) with (@walkFn).
  unfold WalkDir, rootEvents. destruct (Lstat arg) as [d | e].
  - rewrite walkDir_events. unfold retOf. by destruct (firstBroke _).
  - reflexivity.
Qed.

Lemma later_collect_in_step Join Lstat args : forall st3 st,
  stdin st3 = stdin st ->
  pdfs st3 `sublist_of` pdfs st ->
  stdin (Part000Collect.collect Join Lstat args st3)
    = stdin (collect Join Lstat args st)
  /\ pdfs (Part000Collect.collect Join Lstat args st3)
     `sublist_of` pdfs (collect Join Lstat args st).
Proof.
  induction args as [| arg args IH]; intros st3 st Hin Hsub; [done |].
  unfold Part000Collect.collect, collect in *. cbn [foldl]. apply IH.
  - unfold Part000Collect.collectArg, collectArg.
    destruct (String.eqb arg "-"); cbn; [by rewrite Hin |].
    destruct (WalkDir _ _ _ _ _). exact Hin.
  - destruct (String.eqb arg "-") eqn:Harg.
    + apply String.eqb_eq in Harg as ->. rewrite collectArg_stdin.
      unfold Part000Collect.collectArg. rewrite String.eqb_refl.
      pose proof (readLines_filters (stdin st3)) as Hf.
      destruct (Part000.readLines (stdin st3)) as [ret stdin'].
      cbn in Hf |- *. subst ret. rewrite Hin.
      apply sublist_app; [exact Hsub | apply filter_sublist].
    + rewrite collectArg_path by exact Harg.
      unfold Part000Collect.collectArg. rewrite Harg. cbn.
      rewrite walkForPdfs_picked. by apply sublist_app.
Qed.

Lemma later_collect_paths Join Lstat args : forall st,
  Forall (fun arg => String.eqb arg "-" = false) args ->
  Part000Collect.collect Join Lstat args st = collect Join Lstat args st.
Proof.
  induction args as [| arg args IH]; intros st Hargs; [done |].
  apply Forall_cons in Hargs as [Harg Hargs].
  unfold Part000Collect.collect, collect in *. cbn [foldl].
  rewrite <- (IH _ Hargs). f_equal.
  rewrite collectArg_path by exact Harg.
  unfold Part000Collect.collectArg. rewrite Harg.
  by rewrite walkForPdfs_picked.
Qed.

End LaterCollector.

(** X7: the collector of the later revision ([readLines], [walkForPdfs])
    and the one of main.go read standard input alike, and the later one
    collects a sublist of what main.go collects, in the same order; with
    no "-" among the arguments the two collect the same. *)
Theorem later_collector_refines Join Lstat args st :
  Collector.stdin (Part000Collect.collect Join Lstat args st)
    = Collector.stdin (Collector.collect Join Lstat args st)
  /\ Collector.pdfs (Part000Collect.collect Join Lstat args st)
     `sublist_of` Collector.pdfs (Collector.collect Join Lstat args st)
  /\ (Forall (fun arg => String.eqb arg "-" = false) args ->
      Part000Collect.collect Join Lstat args st
      = Collector.collect Join Lstat args st).
Proof.
  destruct (later_collect_in_step Join Lstat args st st eq_refl
              ltac:(reflexivity)) as [H1 H2].
  split; [exact H1 |]. split; [exact H2 |]. apply later_collect_paths.
Qed.

Lemma later_collector_refines_witness :
  Part000Collect.collect Samples.joinSlash Samples.lstat ["mixed"; "docs"]
    (Samples.fresh Samples.twoLines)
  = Collector.collect Samples.joinSlash Samples.lstat ["mixed"; "docs"]
      (Samples.fresh Samples.twoLines).
Proof.
  apply (later_collector_refines Samples.joinSlash Samples.lstat
           ["mixed"; "docs"] (Samples.fresh Samples.twoLines)).
  repeat constructor.
Defined.

(** X8: [readLines] returns, in input order, exactly the lines of the
    scan that look like a pdf, and uses up that scan of standard input;
    with nothing to read it returns the empty slice. *)
Theorem readLines_keeps_pdf_lines stdin :
  Part000.readLines stdin
  = (List.filter Part000.looksLikePdf
       (Collector.lines (hd Collector.noInput stdin)),
     tl stdin)
  /\ Part000.readLines [] = ([], []).
Proof.
  split; [| reflexivity].
  rewrite <- readLines_filters. reflexivity.
Qed.

(** * Further properties: the shuffle *)
Section ShuffleMore.
Import Rand Shuffle.
Context {A : Type}.

Lemma swap_Some (i j : nat) (l l' : list A) :
  swap i j l = Some l' ->
  exists x y, l !! i = Some x /\ l !! j = Some y
              /\ l' = <[j := x]> (<[i := y]> l).
Proof.
  unfold swap. destruct (l !! i) as [x |] eqn:Hx; [| discriminate].
  destruct (l !! j) as [y |] eqn:Hy; [| discriminate].
  intros [= <-]. by exists x, y.
Qed.

Lemma swap_lookups (i j : nat) (l l' : list A) :
  swap i j l = Some l' ->
  length l' = length l
  /\ l' !! i = l !! j
  /\ l' !! j = l !! i
  /\ forall k, k <> i -> k <> j -> l' !! k = l !! k.
Proof.
  intros (x & y & Hx & Hy & ->)%swap_Some.
  pose proof (lookup_lt_Some _ _ _ Hx) as Hi.
  pose proof (lookup_lt_Some _ _ _ Hy) as Hj.
  split; [by rewrite !length_insert |]. split; [| split].
  - destruct (decide (i = j)) as [-> | Hne].
    + rewrite list_lookup_insert_eq by (by rewrite length_insert). congruence.
    + rewrite list_lookup_insert_ne by done.
      by rewrite list_lookup_insert_eq.
  - rewrite list_lookup_insert_eq by (by rewrite length_insert). done.
  - intros k Hki Hkj. by rewrite !list_lookup_insert_ne.
Qed.

End ShuffleMore.

(** X9: the swap closure exchanges the elements at the two positions and
    touches nothing else, the length included; it panics exactly when one
    of the positions lies outside the slice. *)
Theorem swap_exchanges_two_positions {A : Type} (i j : nat) (l : list A) :
  (forall l', Shuffle.swap i j l = Some l' ->
     length l' = length l
     /\ l' !! i = l !! j
     /\ l' !! j = l !! i
     /\ forall k, k <> i -> k <> j -> l' !! k = l !! k)
  /\ (Shuffle.swap i j l = None <-> (length l <= i \/ length l <= j)%nat).
Proof.
  split; [intros l'; apply swap_lookups |].
  unfold Shuffle.swap. split.
  - destruct (l !! i) eqn:Hi; [| left; by apply lookup_ge_None].
    destruct (l !! j) eqn:Hj; [discriminate | right; by apply lookup_ge_None].
  - intros [H | H]; apply lookup_ge_None in H; rewrite H; [done |].
    by destruct (l !! i).
Qed.

Lemma swap_exchanges_two_positions_witness :
  length ["c"; "b"; "a"] = length ["a"; "b"; "c"]
  /\ ["c"; "b"; "a"] !! 2%nat = ["a"; "b"; "c"] !! 0%nat
  /\ ["c"; "b"; "a"] !! 0%nat = ["a"; "b"; "c"] !! 2%nat
  /\ forall k, k <> 2%nat -> k <> 0%nat ->
               ["c"; "b"; "a"] !! k = ["a"; "b"; "c"] !! k.
Proof.
  apply (proj1 (swap_exchanges_two_positions 2 0 ["a"; "b"; "c"])).
  reflexivity.
Defined.

(** * Further properties: the server *)
Section ServerMore.
Import Server Observed.

Lemma expected_iff filename x :
  expected filename x = true <-> urlPath x = "/" +:+ filename.
Proof. unfold expected. apply String.eqb_eq. Qed.

(** One run of the handler, by whether the request completes. *)
Lemma handler_counter filename buf wg x :
  wgAfter (handler filename buf wg x)
  = (if completes filename buf x then wg - 1 else wg)
  /\ (wgAfter (handler filename buf wg x) =? 0)
     && isCompleted (how (handler filename buf wg x))
     = completes filename buf x && (wg =? 1).
Proof.
  unfold completes, expected, handler.
  destruct (String.eqb (urlPath x) ("/" +:+ filename)); cbn [negb andb].
  - destruct (writeLoop buf (writes x) []) as [sent e].
    destruct e; cbn; try (split; [reflexivity | by rewrite andb_false_r]).
    split; [reflexivity |].
    destruct (Z.eqb_spec (wg - 1) 0) as [H0 | H0].
    + rewrite H0. cbn. symmetry. apply Z.eqb_eq. lia.
    + cbn. symmetry. apply Z.eqb_neq. lia.
  - cbn. split; [reflexivity | by rewrite andb_false_r].
Qed.

Lemma serve_counts filename buf xs : forall s,
  wg (serve filename buf xs s) = wg s - completed filename buf xs
  /\ releases (serve filename buf xs s)
     = (releases s +
        if ((1 <=? wg s) && (wg s <=? completed filename buf xs))%Z
        then 1 else 0)%nat.
Proof.
  unfold completed.
  induction xs as [| x xs IH]; intros s.
  - cbn. split; [lia |]. change (Z.of_nat 0) with 0.
    destruct (Z.leb_spec 1 (wg s)), (Z.leb_spec (wg s) 0); cbn; lia.
  - cbn [serve foldl]. fold (serve filename buf xs (serve1 filename buf s x)).
    destruct (IH (serve1 filename buf s x)) as [-> ->].
    unfold serve1; cbn [wg releases].
    destruct (handler_counter filename buf (wg s) x) as [-> ->].
    cbn [List.filter].
    destruct (completes filename buf x); cbn [andb length].
    + split; [lia |].
      set (n := length (List.filter (completes filename buf) xs)).
      destruct (Z.eqb_spec (wg s) 1) as [H1 | H1];
        destruct (Z.leb_spec 1 (wg s - 1)), (Z.leb_spec (wg s - 1) (Z.of_nat n)),
          (Z.leb_spec 1 (wg s)), (Z.leb_spec (wg s) (Z.of_nat (S n)));
        cbn; lia.
    + split; reflexivity.
Qed.

Lemma filter_completes_expected filename buf xs :
  List.filter (completes filename buf) (List.filter (expected filename) xs)
  = List.filter (completes filename buf) xs.
Proof.
  induction xs as [| x xs IH]; [reflexivity |]. cbn [List.filter].
  unfold completes at 2 3.
  destruct (expected filename x) eqn:He; cbn [andb List.filter].
  - unfold completes at 1. rewrite He. cbn [andb]. by rewrite IH.
  - exact IH.
Qed.

(** Pieces taken one by one make the loop hand over all of them. *)
Lemma writeLoop_pieces pieces : forall sent,
  writeLoop (List.concat pieces) (inPieces pieces) sent
  = (sent ++ List.concat pieces, Completed).
Proof.
  induction pieces as [| piece pieces IH]; intros sent.
  - cbn. by rewrite app_nil_r.
  - cbn [List.concat inPieces map].
    destruct (piece ++ List.concat pieces) as [| b rest] eqn:Hb.
    + cbn. by rewrite app_nil_r.
    + cbn [writeLoop]. rewrite <- Hb.
      rewrite (proj2 (Nat.leb_le _ _)) by (rewrite length_app; lia).
      rewrite drop_app_length, take_app_length.
      fold (inPieces pieces). rewrite IH. by rewrite <- app_assoc.
Qed.

End ServerMore.

(** X12: the wait group counter after any number of requests is the
    counter before minus the number of requests for the expected path
    whose body was written to the end: every such request calls
    [wg.Done()] once, no other request touches the counter. *)
Theorem counter_counts_completed_requests filename buf xs s :
  Server.wg (Server.serve filename buf xs s)
  = Server.wg s - Observed.completed filename buf xs.
Proof. apply serve_counts. Qed.

(** * The wait of [open] *)
Section WaitFacts.
Import Server Driver Observed Samples.

Lemma completed_app filename buf xs ys :
  completed filename buf (xs ++ ys)
  = completed filename buf xs + completed filename buf ys.
Proof.
  unfold completed. rewrite List.filter_app, length_app. lia.
Qed.

Lemma completed_nonneg filename buf xs : 0 <= completed filename buf xs.
Proof. unfold completed. lia. Qed.

Lemma completed_pos filename buf xs :
  1 <= completed filename buf xs <->
  exists x, In x xs /\ completes filename buf x = true.
Proof.
  unfold completed.
  destruct (List.filter (completes filename buf) xs) as [| y ys] eqn:Hf.
  - cbn. split; [lia |]. intros (x & Hin & Hc).
    assert (In x (List.filter (completes filename buf) xs)) as H
      by (by apply List.filter_In).
    rewrite Hf in H. destruct H.
  - cbn [length]. split; [| lia]. intros _. exists y.
    apply (List.filter_In (completes filename buf) y xs). rewrite Hf. by left.
Qed.


Lemma serve_app filename buf xs ys s :
  serve filename buf (xs ++ ys) s
  = serve filename buf ys (serve filename buf xs s).
Proof. unfold serve. apply foldl_app. Qed.

(** When [wg.Wait()] returns, by the requests written in full before main
    reaches it and after. *)
Lemma wait_split filename buf xs k :
  waitReturns (serve filename buf (take k xs) started)
    (serve filename buf (drop k xs) (serve filename buf (take k xs) started))
  = (completed filename buf (take k xs) =? 1)
    || ((completed filename buf (take k xs) =? 0)
        && (1 <=? completed filename buf (drop k xs))).
Proof.
  unfold waitReturns.
  destruct (serve_counts filename buf (drop k xs)
              (serve filename buf (take k xs) started)) as [_ ->].
  destruct (serve_counts filename buf (take k xs) started) as [-> _].
  cbn [wg started].
  pose proof (completed_nonneg filename buf (take k xs)) as H1.
  pose proof (completed_nonneg filename buf (drop k xs)) as H2.
  set (c1 := completed filename buf (take k xs)) in *.
  set (c2 := completed filename buf (drop k xs)) in *.
  destruct (Z.eqb_spec c1 1) as [-> | Hc1].
  - reflexivity.
  - replace (1 - c1 =? 0) with false by (symmetry; apply Z.eqb_neq; lia).
    cbn [orb].
    destruct (Z.eqb_spec c1 0) as [-> | Hc0]; cbn [andb].
    + change (1 - 0) with 1. change (1 <=? 1) with true. cbn [andb].
      destruct (1 <=? c2); [apply Nat.ltb_lt | apply Nat.ltb_ge]; lia.
    + replace (1 <=? 1 - c1) with false by (symmetry; apply Z.leb_gt; lia).
      cbn [andb]. apply Nat.ltb_ge. lia.
Qed.

(** [open] once the file is read, the port bound and the viewer launched. *)
Lemma open_launched w path page p buf port :
  ReadFile w path = Ok buf ->
  Listen w (listens p) = Ok port ->
  Run w (urlOf w port (Base w path) page) = None ->
  snd (open w path page p)
  = if waitReturns
         (serve (Base w path) buf
            (take (early w (urlOf w port (Base w path) page))
               (traffic w (urlOf w port (Base w path) page))) started)
         (serve (Base w path) buf
            (drop (early w (urlOf w port (Base w path) page))
               (traffic w (urlOf w port (Base w path) page)))
            (serve (Base w path) buf
               (take (early w (urlOf w port (Base w path) page))
                  (traffic w (urlOf w port (Base w path) page))) started))
    then Opened else Waiting.
Proof.
  intros Hread Hlisten Hrun. unfold open. rewrite Hread, Hlisten, Hrun.
  cbn zeta. by destruct (waitReturns _ _).
Qed.

End WaitFacts.




(** Two requests written in full: [open] returns when at most one of them
    is over as main reaches [wg.Wait()]; when both are, the counter is
    already at -1 and the wait never ends. *)
Example asked_twice :
  snd (Driver.open (Samples.askedTwice 0) "b.pdf" 2 Samples.boot)
  = Driver.Opened
  /\ snd (Driver.open (Samples.askedTwice 1) "b.pdf" 2 Samples.boot)
     = Driver.Opened
  /\ snd (Driver.open (Samples.askedTwice 2) "b.pdf" 2 Samples.boot)
     = Driver.Waiting.
Proof. split_and!; vm_compute; reflexivity. Qed.

(** X13: [wg.Wait()] returns only if some request for the expected path
    had its body written to the end; it does return when exactly one had,
    whenever main reaches the call; and when two or more were written in
    full before main reaches the call, the counter is below zero and the
    wait never ends. The counter is brought to zero at most once. *)
Theorem wait_returns_iff_a_request_completes filename buf xs k :
  (Server.waitReturns
     (Server.serve filename buf (take k xs) Server.started)
     (Server.serve filename buf (drop k xs)
        (Server.serve filename buf (take k xs) Server.started)) = true ->
   exists x, In x xs /\ Observed.completes filename buf x = true)
  /\ (Observed.completed filename buf xs = 1 ->
      Server.waitReturns
        (Server.serve filename buf (take k xs) Server.started)
        (Server.serve filename buf (drop k xs)
           (Server.serve filename buf (take k xs) Server.started)) = true)
  /\ (2 <= Observed.completed filename buf (take k xs) ->
      Server.waitReturns
        (Server.serve filename buf (take k xs) Server.started)
        (Server.serve filename buf (drop k xs)
           (Server.serve filename buf (take k xs) Server.started)) = false)
  /\ (Server.releases (Server.serve filename buf xs Server.started) <= 1)%nat.
Proof.
  rewrite wait_split.
  pose proof (completed_nonneg filename buf (take k xs)) as H1.
  pose proof (completed_nonneg filename buf (drop k xs)) as H2.
  pose proof (completed_app filename buf (take k xs) (drop k xs)) as Happ.
  rewrite take_drop in Happ.
  split_and!.
  - intros Hw. apply completed_pos. rewrite Happ.
    apply orb_true_iff in Hw as [Hw | Hw].
    + apply Z.eqb_eq in Hw. lia.
    + apply andb_true_iff in Hw as [_ Hw]. apply Z.leb_le in Hw. lia.
  - intros Hone.
    destruct (Z.eqb_spec (Observed.completed filename buf (take k xs)) 1)
      as [Hc | Hc]; [reflexivity |].
    cbn [orb]. apply andb_true_iff.
    split; [apply Z.eqb_eq | apply Z.leb_le]; lia.
  - intros Htwo. apply orb_false_iff.
    split; [apply Z.eqb_neq; lia |].
    apply andb_false_iff. left. apply Z.eqb_neq. lia.
  - destruct (serve_counts filename buf xs Server.started) as [_ ->].
    cbn [Server.releases Server.started].
    destruct ((1 <=? Server.wg Server.started)
              && (Server.wg Server.started <=? _)); lia.
Qed.

Lemma wait_returns_iff_a_request_completes_witness :
  Server.waitReturns
    (Server.serve "b.pdf" Samples.bBytes
       (take 2 [Samples.get "/b.pdf" (length Samples.bBytes);
                Samples.get "/b.pdf" (length Samples.bBytes)])
       Server.started)
    (Server.serve "b.pdf" Samples.bBytes
       (drop 2 [Samples.get "/b.pdf" (length Samples.bBytes);
                Samples.get "/b.pdf" (length Samples.bBytes)])
       (Server.serve "b.pdf" Samples.bBytes
          (take 2 [Samples.get "/b.pdf" (length Samples.bBytes);
                   Samples.get "/b.pdf" (length Samples.bBytes)])
          Server.started)) = false.
Proof.
  apply (wait_returns_iff_a_request_completes "b.pdf" Samples.bBytes
           [Samples.get "/b.pdf" (length Samples.bBytes);
            Samples.get "/b.pdf" (length Samples.bBytes)] 2).
  vm_compute. discriminate.
Defined.

(** X14: requests for any other path are answered 404 and are otherwise
    without effect: the counter and the release of the wait are what they
    would be had those requests never arrived. *)
Theorem other_paths_are_inert filename buf xs s :
  Server.wg (Server.serve filename buf xs s)
  = Server.wg (Server.serve filename buf
                 (List.filter (Observed.expected filename) xs) s)
  /\ Server.releases (Server.serve filename buf xs s)
     = Server.releases (Server.serve filename buf
                          (List.filter (Observed.expected filename) xs) s)
  /\ forall x wg, Observed.expected filename x = false ->
       Server.handler filename buf wg x
       = {| Server.resp := Server.notFound; Server.how := Server.NotFound;
            Server.wgAfter := wg; Server.said := [] |}.
Proof.
  destruct (serve_counts filename buf xs s) as [-> ->].
  destruct (serve_counts filename buf
              (List.filter (Observed.expected filename) xs) s) as [-> ->].
  unfold Observed.completed. rewrite filter_completes_expected.
  split; [reflexivity |]. split; [reflexivity |].
  intros x wg Hx. apply handler_other_path. intros Hp.
  apply expected_iff in Hp. congruence.
Qed.

(** X15: the body sent for the expected path is always an initial part of
    the document, whatever the connection does: never a byte that is not
    in the file, never more bytes than the Content-Length announced. *)
Theorem body_is_an_initial_part filename buf wg x :
  Server.urlPath x = "/" +:+ filename ->
  (exists rest,
     buf = Server.body (Server.resp (Server.handler filename buf wg x)) ++ rest)
  /\ (length (Server.body (Server.resp (Server.handler filename buf wg x)))
      <= length buf)%nat.
Proof.
  intros Hp.
  destruct (handler_expected_path filename buf wg x Hp)
    as (_ & _ & _ & -> & _).
  destruct (writeLoop_prefix (Server.writes x) buf []) as [k ->]. cbn [app].
  split; [exists (drop k buf); by rewrite take_drop |].
  rewrite length_take. lia.
Qed.

Lemma body_is_an_initial_part_witness :
  (exists rest,
     Samples.bBytes
     = Server.body (Server.resp (Server.handler "b.pdf" Samples.bBytes 1
                                   (Samples.getBroken "/b.pdf" 4))) ++ rest)
  /\ (length (Server.body (Server.resp
                (Server.handler "b.pdf" Samples.bBytes 1
                   (Samples.getBroken "/b.pdf" 4))))
      <= length Samples.bBytes)%nat.
Proof.
  apply (body_is_an_initial_part "b.pdf" Samples.bBytes 1
           (Samples.getBroken "/b.pdf" 4)).
  reflexivity.
Defined.

(** X16: short writes are handled: when the connection takes the document
    in pieces, one piece per call of Write, however the document is cut,
    the loop hands over the whole document in order and the handler calls
    [wg.Done()]. *)
Theorem document_sent_in_pieces filename pieces wg :
  Server.body (Server.resp
    (Server.handler filename (List.concat pieces) wg
       {| Server.urlPath := "/" +:+ filename;
          Server.writes := Observed.inPieces pieces |}))
  = List.concat pieces
  /\ Server.wgAfter
       (Server.handler filename (List.concat pieces) wg
          {| Server.urlPath := "/" +:+ filename;
             Server.writes := Observed.inPieces pieces |})
     = wg - 1.
Proof.
  destruct (handler_expected_path filename (List.concat pieces) wg
              {| Server.urlPath := "/" +:+ filename;
                 Server.writes := Observed.inPieces pieces |} eq_refl)
    as (_ & _ & _ & -> & -> & _).
  cbn [Server.writes]. rewrite writeLoop_pieces. by cbn.
Qed.

(** * Further properties: [open] and the driver *)
Section DriverMore.
Import Rand Server Driver Observed.

(** An error the loop stops on is one a call of Write returned. *)
Lemma writeLoop_failed script : forall buf sent sent' e,
  writeLoop buf script sent = (sent', WriteFailed e) ->
  exists n, In (n, Some e) script.
Proof.
  induction script as [| [n [e0 |]] script IH]; intros buf sent sent' e H;
    destruct buf as [| b buf]; cbn [writeLoop] in H; try congruence.
  - injection H as _ <-. exists n. by left.
  - destruct (n <=? length (b :: buf))%nat; [| congruence].
    destruct (IH _ _ _ _ H) as [m Hm]. exists m. by right.
Qed.

(** What a run of the handler prints is an error of its connection. *)
Lemma handler_said filename buf wg x line :
  In line (said (handler filename buf wg x)) ->
  exists n, In (n, Some line) (writes x).
Proof.
  unfold handler. destruct (negb _); [intros [] |].
  destruct (writeLoop buf (writes x) []) as [sent e] eqn:Hw.
  destruct e; cbn; try (by intros []).
  intros [<- | []]. by apply writeLoop_failed in Hw.
Qed.

Lemma serve_said filename buf xs : forall s line,
  In line (flat_map said (answers (serve filename buf xs s))) ->
  In line (flat_map said (answers s))
  \/ exists x n, In x xs /\ In (n, Some line) (writes x).
Proof.
  induction xs as [| x xs IH]; intros s line; [by left |].
  cbn [serve foldl]. fold (serve filename buf xs (serve1 filename buf s x)).
  intros H. apply IH in H as [H | (y & n & Hy & Hn)].
  - unfold serve1 in H; cbn [answers] in H.
    rewrite flat_map_app in H. apply in_app_or in H as [H | H]; [by left |].
    cbn in H. rewrite app_nil_r in H.
    apply handler_said in H as [n Hn]. right. exists x, n. split; [by left | done].
  - right. exists y, n. split; [by right | done].
Qed.

(** [open] draws nothing, and prints only the errors of failed writes. *)
Lemma open_frame w path page p :
  rnd (fst (open w path page p)) = rnd p
  /\ exists printed,
       out (fst (open w path page p)) = out p ++ printed
       /\ Forall (writeError w) printed.
Proof.
  unfold open. destruct (ReadFile w path) as [buf |]; cbn;
    [| split; [done | exists []; by rewrite app_nil_r]].
  destruct (Listen w (listens p)) as [port |]; cbn;
    [| split; [done | exists []; by rewrite app_nil_r]].
  destruct (Run w _); cbn;
    [split; [done | exists []; by rewrite app_nil_r] |].
  set (url := urlOf w port (Base w path) page).
  set (atEnd := serve _ _ (drop _ _) _).
  assert (Forall (writeError w) (flat_map said (answers atEnd))) as Hall.
  { apply List.Forall_forall. intros line Hline. subst atEnd.
    apply serve_said in Hline as [Hline | (x & n & Hx & Hn)].
    - apply serve_said in Hline as [[] | (x & n & Hx & Hn)].
      exists url, x, n. split; [| done].
      apply list_elem_of_In. eapply subseteq_take. by apply list_elem_of_In.
    - exists url, x, n. split; [| done].
      apply list_elem_of_In. eapply subseteq_drop. by apply list_elem_of_In. }
  destruct (waitReturns _ _); cbn; (split; [done | by eexists]).
Qed.

Lemma drive_facts w pdfs : forall p,
  let p' := fst (fst (drive w pdfs p)) in
  let t := snd (fst (drive w pdfs p)) in
  let e := snd (drive w pdfs p) in
  called t `sublist_of` pdfs
  /\ (exists printed,
        Forall (writeError w) printed
        /\ (e = Exit 1 -> out p' = out p ++ printed ++ [failureLine])
        /\ (e <> Exit 1 -> out p' = out p ++ printed))
  /\ (e = Exit 1 \/ e = Exit 0 \/ e = Panic \/ e = Hang)
  /\ (e = Exit 0 ->
      exists t0 path nPages page live,
        t = t0 ++ [Call path nPages page live; Return None] /\ In path pdfs)
  /\ (e = Hang ->
      exists t0 path nPages page live,
        t = t0 ++ [Call path nPages page live] /\ In path pdfs).
Proof.
  induction pdfs as [| path pdfs IH]; intros p; cbn zeta; cbn [drive].
  - cbn. split_and!; try done; try solve [auto].
    exists []. split_and!; [constructor | done | done].
  - destruct (countPages w path) as [nPages | err].
    2:{ specialize (IH p). cbn zeta in IH.
        destruct IH as (H3 & H4 & H5 & H6 & H7).
        split_and!; try done.
        - by apply sublist_cons.
        - intros He. destruct (H6 He) as (t0 & q & n & pg & lv & Ht & Hin).
          exists t0, q, n, pg, lv. split; [done | by right].
        - intros He. destruct (H7 He) as (t0 & q & n & pg & lv & Ht & Hin).
          exists t0, q, n, pg, lv. split; [done | by right]. }
    destruct (Intn nPages (rnd p)) as [[v r'] |] eqn:Hi.
    2:{ cbn. split_and!; try done; try solve [auto].
        - apply sublist_nil_l.
        - exists []. split_and!; [constructor | done |].
          intros _. by rewrite app_nil_r. }
    set (p1 := {| rnd := r'; out := out p; listens := listens p;
                  servers := servers p |}).
    destruct (open_frame w path (v + 1) p1) as (_ & printed & Ho & Hpr).
    destruct (open w path (v + 1) p1) as [p2 [| err |]]; cbn in Ho.
    + cbn. split_and!; try done; try solve [auto].
      * by apply sublist_skip, sublist_nil_l.
      * exists printed. split_and!; done.
      * intros _. exists [], path, nPages, (v + 1), (servers p).
        split; [done | by left].
    + specialize (IH p2). cbn zeta in IH.
      destruct (drive w pdfs p2) as [[p3 t] e]. cbn in IH |- *.
      destruct IH as (H3 & (printed' & Hpr' & H4 & H4') & H5 & H6 & H7).
      split_and!; try done.
      * by apply sublist_skip.
      * exists (printed ++ printed'). split_and!.
        -- by apply Forall_app.
        -- intros He. rewrite (H4 He), Ho. by rewrite <- !app_assoc.
        -- intros He. rewrite (H4' He), Ho. by rewrite <- !app_assoc.
      * intros He. destruct (H6 He) as (t0 & q & n & pg & lv & -> & Hin).
        exists (Call path nPages (v + 1) (servers p) :: Return (Some err) :: t0),
          q, n, pg, lv. split; [done | by right].
      * intros He. destruct (H7 He) as (t0 & q & n & pg & lv & -> & Hin).
        exists (Call path nPages (v + 1) (servers p) :: Return (Some err) :: t0),
          q, n, pg, lv. split; [done | by right].
    + cbn. split_and!; try done; try solve [auto].
      * by apply sublist_skip, sublist_nil_l.
      * exists printed. split_and!; done.
      * intros _. exists [], path, nPages, (v + 1), (servers p).
        split; [done | by left].
Qed.

End DriverMore.

(** X17: [open] returns nil only if the file was read, a port was bound,
    the viewer was launched and some request for the expected path had
    the whole document written to it; and with the file read, the port
    bound and the viewer launched it does return nil when exactly one
    request was written in full. *)
Theorem open_succeeds_iff_document_delivered w path page p :
  (snd (Driver.open w path page p) = Driver.Opened ->
   exists buf port,
     Driver.ReadFile w path = Ok buf
     /\ Driver.Listen w (Driver.listens p) = Ok port
     /\ Driver.Run w (Driver.urlOf w port (Driver.Base w path) page) = None
     /\ exists x,
          In x (Driver.traffic w
                  (Driver.urlOf w port (Driver.Base w path) page))
          /\ Observed.completes (Driver.Base w path) buf x = true)
  /\ (forall buf port,
        Driver.ReadFile w path = Ok buf ->
        Driver.Listen w (Driver.listens p) = Ok port ->
        Driver.Run w (Driver.urlOf w port (Driver.Base w path) page) = None ->
        Observed.completed (Driver.Base w path) buf
          (Driver.traffic w (Driver.urlOf w port (Driver.Base w path) page))
        = 1 ->
        snd (Driver.open w path page p) = Driver.Opened).
Proof.
  split.
  - destruct (Driver.ReadFile w path) as [buf |] eqn:Hread;
      [| unfold Driver.open; by rewrite Hread].
    destruct (Driver.Listen w (Driver.listens p)) as [port |] eqn:Hlisten;
      [| unfold Driver.open; by rewrite Hread, Hlisten].
    destruct (Driver.Run w (Driver.urlOf w port (Driver.Base w path) page))
      as [err |] eqn:Hrun;
      [unfold Driver.open; by rewrite Hread, Hlisten, Hrun |].
    rewrite (open_launched w path page p buf port Hread Hlisten Hrun).
    destruct (Server.waitReturns _ _) eqn:Hw; [| discriminate].
    intros _. exists buf, port. split_and!; try done.
    rewrite wait_split in Hw. apply completed_pos.
    rewrite <- (take_drop (Driver.early w
                  (Driver.urlOf w port (Driver.Base w path) page))
                  (Driver.traffic w _)).
    rewrite completed_app.
    pose proof (completed_nonneg (Driver.Base w path) buf
                  (take (Driver.early w (Driver.urlOf w port
                     (Driver.Base w path) page)) (Driver.traffic w
                     (Driver.urlOf w port (Driver.Base w path) page)))) as H1.
    pose proof (completed_nonneg (Driver.Base w path) buf
                  (drop (Driver.early w (Driver.urlOf w port
                     (Driver.Base w path) page)) (Driver.traffic w
                     (Driver.urlOf w port (Driver.Base w path) page)))) as H2.
    apply orb_true_iff in Hw as [Hw | Hw].
    + apply Z.eqb_eq in Hw. lia.
    + apply andb_true_iff in Hw as [_ Hw]. apply Z.leb_le in Hw. lia.
  - intros buf port Hread Hlisten Hrun Hone.
    rewrite (open_launched w path page p buf port Hread Hlisten Hrun).
    rewrite wait_split.
    rewrite <- (take_drop (Driver.early w
                  (Driver.urlOf w port (Driver.Base w path) page))
                  (Driver.traffic w _)) in Hone.
    rewrite completed_app in Hone.
    pose proof (completed_nonneg (Driver.Base w path) buf
                  (take (Driver.early w (Driver.urlOf w port
                     (Driver.Base w path) page)) (Driver.traffic w
                     (Driver.urlOf w port (Driver.Base w path) page)))) as H1.
    pose proof (completed_nonneg (Driver.Base w path) buf
                  (drop (Driver.early w (Driver.urlOf w port
                     (Driver.Base w path) page)) (Driver.traffic w
                     (Driver.urlOf w port (Driver.Base w path) page)))) as H2.
    destruct (Z.eqb_spec (Observed.completed (Driver.Base w path) buf
                (take (Driver.early w (Driver.urlOf w port
                   (Driver.Base w path) page)) (Driver.traffic w
                   (Driver.urlOf w port (Driver.Base w path) page)))) 1)
      as [Hc1 | Hc1]; [reflexivity |].
    cbn [orb].
    replace (Observed.completed _ _ (take _ _)) with 0 by lia.
    replace (Observed.completed _ _ (drop _ _)) with 1 by lia.
    reflexivity.
Qed.

Lemma open_succeeds_iff_document_delivered_witness :
  exists buf port,
    Driver.ReadFile Samples.retry "b.pdf" = Ok buf
    /\ Driver.Listen Samples.retry (Driver.listens Samples.boot) = Ok port
    /\ Driver.Run Samples.retry
         (Driver.urlOf Samples.retry port
            (Driver.Base Samples.retry "b.pdf") 2) = None
    /\ exists x,
         In x (Driver.traffic Samples.retry
                 (Driver.urlOf Samples.retry port
                    (Driver.Base Samples.retry "b.pdf") 2))
         /\ Observed.completes (Driver.Base Samples.retry "b.pdf") buf x
            = true.
Proof.
  apply (open_succeeds_iff_document_delivered Samples.retry "b.pdf" 2
           Samples.boot).
  reflexivity.
Defined.

(** X18: [open] draws no random value, and the only lines it adds to
    standard output are errors of failed writes, printed by the handler;
    it binds at most one listener, and none when the file cannot be read,
    in which case the process state is untouched. It starts no server
    when the bind fails. *)
Theorem open_touches_only_the_network w path page p :
  Driver.rnd (fst (Driver.open w path page p)) = Driver.rnd p
  /\ (exists printed,
        Driver.out (fst (Driver.open w path page p))
        = Driver.out p ++ printed
        /\ Forall (Observed.writeError w) printed)
  /\ (Driver.listens (fst (Driver.open w path page p)) = Driver.listens p
      \/ Driver.listens (fst (Driver.open w path page p))
         = S (Driver.listens p))
  /\ (forall err, Driver.ReadFile w path = Err err ->
        Driver.open w path page p = (p, Driver.OpenFailed err))
  /\ (forall err, Driver.Listen w (Driver.listens p) = Err err ->
        Driver.servers (fst (Driver.open w path page p)) = Driver.servers p).
Proof.
  destruct (open_frame w path page p) as [Hr Ho].
  split_and!; try done; unfold Driver.open.
  - destruct (Driver.ReadFile w path); [| by left].
    destruct (Driver.Listen w (Driver.listens p)); [| by right].
    destruct (Driver.Run w _); [by right |]. cbn zeta.
    destruct (Server.waitReturns _ _); by right.
  - by intros err ->.
  - intros err ->. by destruct (Driver.ReadFile w path).
Qed.

(** X19: the candidate loop ends the process in one of four ways: exit
    code 0, exit code 1, a panic, or a wait that never ends. It prints
    "Could not find a usable PDF" exactly when it ends with exit code 1,
    as its last line; every other line it adds to standard output is the
    error of a failed write, printed by a handler. *)
Theorem driver_exit_and_message w pdfs p :
  (snd (Driver.drive w pdfs p) = Driver.Exit 1
   \/ snd (Driver.drive w pdfs p) = Driver.Exit 0
   \/ snd (Driver.drive w pdfs p) = Driver.Panic
   \/ snd (Driver.drive w pdfs p) = Driver.Hang)
  /\ exists printed,
       Forall (Observed.writeError w) printed
       /\ (snd (Driver.drive w pdfs p) = Driver.Exit 1 ->
           Driver.out (fst (fst (Driver.drive w pdfs p)))
           = Driver.out p ++ printed ++ [Observed.failureLine])
       /\ (snd (Driver.drive w pdfs p) <> Driver.Exit 1 ->
           Driver.out (fst (fst (Driver.drive w pdfs p)))
           = Driver.out p ++ printed).
Proof.
  destruct (drive_facts w pdfs p) as (_ & H4 & H5 & _).
  by split.
Qed.

(** A broken pipe is printed by the handler before the process hangs. *)
Example broken_pipe_is_printed :
  Driver.out (fst (fst (Driver.drive Samples.brokenPipe ["b.pdf"]
                          Samples.boot)))
  = ["write: broken pipe"]
  /\ snd (Driver.drive Samples.brokenPipe ["b.pdf"] Samples.boot)
     = Driver.Hang.
Proof. split; vm_compute; reflexivity. Qed.

(** X20: the driver calls [open] on candidates in the order of the list
    and on each at most once: the paths of its calls are a sublist of the
    candidate list. A candidate that failed is never tried again. *)
Theorem driver_never_retries w pdfs p :
  Observed.called (snd (fst (Driver.drive w pdfs p))) `sublist_of` pdfs.
Proof. apply drive_facts. Qed.

(** X22: a run that exits with code 0 ends with a call of [open] on one
    of the candidates that returned nil; a run that hangs ends inside a
    call of [open] on one of the candidates. *)
Theorem driver_ends_in_the_last_call w pdfs p :
  (snd (Driver.drive w pdfs p) = Driver.Exit 0 ->
   exists t0 path nPages page live,
     snd (fst (Driver.drive w pdfs p))
     = t0 ++ [Driver.Call path nPages page live; Driver.Return None]
     /\ In path pdfs)
  /\ (snd (Driver.drive w pdfs p) = Driver.Hang ->
      exists t0 path nPages page live,
        snd (fst (Driver.drive w pdfs p))
        = t0 ++ [Driver.Call path nPages page live]
        /\ In path pdfs).
Proof.
  destruct (drive_facts w pdfs p) as (_ & _ & _ & H6 & H7).
  by split.
Qed.

Lemma driver_ends_in_the_last_call_witness :
  exists t0 path nPages page live,
    snd (fst (Driver.drive Samples.twoAttempts ["a.pdf"; "b.pdf"]
                Samples.boot))
    = t0 ++ [Driver.Call path nPages page live; Driver.Return None]
    /\ In path ["a.pdf"; "b.pdf"].
Proof.
  apply (driver_ends_in_the_last_call Samples.twoAttempts ["a.pdf"; "b.pdf"]
           Samples.boot).
  reflexivity.
Defined.

(** X23: when the page count of no candidate can be read, the driver
    skips them all: it never calls [open], binds no port, draws nothing,
    prints the failure line and exits with code 1. *)
Theorem unreadable_candidates_exit_1 w pdfs p :
  Forall (fun path => exists err, Driver.countPages w path = Err err) pdfs ->
  Driver.drive w pdfs p
  = ({| Driver.rnd := Driver.rnd p;
        Driver.out := Driver.out p ++ [Observed.failureLine];
        Driver.listens := Driver.listens p;
        Driver.servers := Driver.servers p |}, [], Driver.Exit 1).
Proof.
  induction 1 as [| path pdfs [err Herr] _ IH]; [reflexivity |].
  cbn [Driver.drive]. by rewrite Herr.
Qed.

Lemma unreadable_candidates_exit_1_witness :
  Driver.drive Samples.twoAttempts ["corrupt.pdf"; "corrupt.pdf"] Samples.boot
  = ({| Driver.rnd := Driver.rnd Samples.boot;
        Driver.out := Driver.out Samples.boot ++ [Observed.failureLine];
        Driver.listens := Driver.listens Samples.boot;
        Driver.servers := Driver.servers Samples.boot |}, [], Driver.Exit 1).
Proof.
  apply (unreadable_candidates_exit_1 Samples.twoAttempts
           ["corrupt.pdf"; "corrupt.pdf"] Samples.boot).
  repeat constructor; by eexists.
Defined.

(** X24: [main] never panics in the shuffle: it runs the candidate loop
    on a rearrangement of what the arguments collected, with the output
    of the collection printed first; when nothing was collected it prints
    the failure line and exits with code 1. *)
Theorem main_drives_the_shuffled_candidates w args stdin seed :
  (exists pdfs r,
     Collector.pdfs
       (Collector.collect (Driver.Join w) (Driver.Lstat w) args
          {| Collector.stdin := stdin; Collector.stdout := [];
             Collector.pdfs := [] |}) ≡ₚ pdfs
     /\ Driver.main w args stdin seed
        = Driver.drive w pdfs
            {| Driver.rnd := r;
               Driver.out :=
                 Collector.stdout
                   (Collector.collect (Driver.Join w) (Driver.Lstat w) args
                      {| Collector.stdin := stdin; Collector.stdout := [];
                         Collector.pdfs := [] |});
               Driver.listens := O; Driver.servers := [] |})
  /\ (Collector.pdfs
        (Collector.collect (Driver.Join w) (Driver.Lstat w) args
           {| Collector.stdin := stdin; Collector.stdout := [];
              Collector.pdfs := [] |}) = [] ->
      snd (Driver.main w args stdin seed) = Driver.Exit 1
      /\ Driver.out (fst (fst (Driver.main w args stdin seed)))
         = Collector.stdout
             (Collector.collect (Driver.Join w) (Driver.Lstat w) args
                {| Collector.stdin := stdin; Collector.stdout := [];
                   Collector.pdfs := [] |}) ++ [Observed.failureLine]).
Proof.
  unfold Driver.main.
  set (st := Collector.collect _ _ _ _).
  split.
  - destruct (shuffleFrom_permutes (length (Collector.pdfs st) - 1) seed
                (Collector.pdfs st)) as (pdfs & r & Hs & Hp).
    { destruct (Collector.pdfs st); cbn; [by left | right; lia]. }
    exists pdfs, r. unfold Shuffle.shuffle. rewrite Hs.
    split; [by symmetry | reflexivity].
  - intros ->. cbn. by split.
Qed.

Lemma main_drives_the_shuffled_candidates_witness :
  snd (Driver.main Samples.twoAttempts ["nowhere"] [] Samples.seed)
  = Driver.Exit 1
  /\ Driver.out (fst (fst (Driver.main Samples.twoAttempts ["nowhere"] []
                             Samples.seed)))
     = Collector.stdout
         (Collector.collect (Driver.Join Samples.twoAttempts)
            (Driver.Lstat Samples.twoAttempts) ["nowhere"]
            {| Collector.stdin := []; Collector.stdout := [];
               Collector.pdfs := [] |}) ++ [Observed.failureLine].
Proof.
  apply (main_drives_the_shuffled_candidates Samples.twoAttempts ["nowhere"]
           [] Samples.seed).
  reflexivity.
Defined.

(** * Further properties: the handler of the first revision *)
Section FirstRevision.
Import Server Part000First.

Lemma first_loop_completed script : forall b sent said rest sent' said',
  writeLoop b script sent said = (rest, sent', said', Completed) ->
  rest = [] /\ sent' = sent ++ b.
Proof.
  induction script as [| [n err] script IH];
    intros b sent said rest sent' said' H;
    destruct b as [| c b]; cbn [writeLoop] in H; try congruence.
  - injection H as <- <- _. by rewrite app_nil_r.
  - injection H as <- <- _. by rewrite app_nil_r.
  - destruct (n <=? length (c :: b))%nat; [| congruence].
    apply IH in H as [-> ->]. by rewrite <- app_assoc, take_drop.
Qed.

Lemma first_loop_ignores_errors script : forall b sent said said',
  unsaid (writeLoop b script sent said)
  = unsaid (writeLoop b (hushed script) sent said').
Proof.
  induction script as [| [n err] script IH]; intros b sent said said';
    destruct b as [| c b]; cbn [writeLoop hushed map fst]; try reflexivity.
  fold (hushed script).
  destruct (n <=? length (c :: b))%nat; [apply IH | reflexivity].
Qed.

End FirstRevision.

(** X25: in the first revision the handler consumes the buffer of
    [execOpen] itself. A request whose loop runs to its end gets the whole
    document and leaves the buffer empty, so any later request gets an
    empty body, and calls [wg.Done()] a second time. *)
Theorem first_revision_serves_the_document_once s x :
  snd (Part000First.writeLoop (Part000First.buf s) (Server.writes x) [] [])
  = Server.Completed ->
  Server.body (Server.resp (snd (Part000First.handler s x)))
  = Part000First.buf s
  /\ Part000First.buf (fst (Part000First.handler s x)) = []
  /\ Part000First.wg (fst (Part000First.handler s x)) = Part000First.wg s - 1
  /\ forall y,
       Server.body (Server.resp
         (snd (Part000First.handler (fst (Part000First.handler s x)) y))) = []
       /\ Part000First.wg
            (fst (Part000First.handler (fst (Part000First.handler s x)) y))
          = Part000First.wg s - 2.
Proof.
  intros Hc. unfold Part000First.handler at 1 2 3 5 7.
  destruct (Part000First.writeLoop (Part000First.buf s) (Server.writes x) [] [])
    as [[[rest sent] said] e] eqn:Hw.
  cbn in Hc. subst e. apply first_loop_completed in Hw as [-> ->].
  cbn. split_and!; try done.
  intros y. unfold Part000First.handler. cbn.
  assert (Part000First.writeLoop [] (Server.writes y) [] []
          = ([], [], [], Server.Completed)) as ->
    by (by destruct (Server.writes y) as [| []]).
  cbn. split; [done | lia].
Qed.

Lemma first_revision_serves_the_document_once_witness :
  Server.body (Server.resp
    (snd (Part000First.handler
            {| Part000First.buf := Samples.reportBytes; Part000First.wg := 1 |}
            (Samples.get "/anything" (length Samples.reportBytes)))))
  = Samples.reportBytes
  /\ Part000First.buf
       (fst (Part000First.handler
               {| Part000First.buf := Samples.reportBytes;
                  Part000First.wg := 1 |}
               (Samples.get "/anything" (length Samples.reportBytes)))) = []
  /\ Part000First.wg
       (fst (Part000First.handler
               {| Part000First.buf := Samples.reportBytes;
                  Part000First.wg := 1 |}
               (Samples.get "/anything" (length Samples.reportBytes))))
     = 1 - 1
  /\ forall y,
       Server.body (Server.resp
         (snd (Part000First.handler
                 (fst (Part000First.handler
                         {| Part000First.buf := Samples.reportBytes;
                            Part000First.wg := 1 |}
                         (Samples.get "/anything"
                            (length Samples.reportBytes)))) y))) = []
       /\ Part000First.wg
            (fst (Part000First.handler
                    (fst (Part000First.handler
                            {| Part000First.buf := Samples.reportBytes;
                               Part000First.wg := 1 |}
                            (Samples.get "/anything"
                               (length Samples.reportBytes)))) y))
          = 1 - 2.
Proof.
  apply (first_revision_serves_the_document_once
           {| Part000First.buf := Samples.reportBytes; Part000First.wg := 1 |}
           (Samples.get "/anything" (length Samples.reportBytes))).
  reflexivity.
Defined.

(** X26: in the first revision an error of Write is printed and then
    ignored: the loop goes on with what is left, so the bytes sent, the
    buffer left and the way the handler ends are the same as on a
    connection that takes the same numbers of bytes without any error. *)
Theorem first_revision_ignores_write_errors s x :
  Part000First.unsaid
    (Part000First.writeLoop (Part000First.buf s) (Server.writes x) [] [])
  = Part000First.unsaid
      (Part000First.writeLoop (Part000First.buf s)
         (Part000First.hushed (Server.writes x)) [] [])
  /\ fst (Part000First.handler s x)
     = fst (Part000First.handler s
              {| Server.urlPath := Server.urlPath x;
                 Server.writes := Part000First.hushed (Server.writes x) |})
  /\ Server.body (Server.resp (snd (Part000First.handler s x)))
     = Server.body (Server.resp
         (snd (Part000First.handler s
                 {| Server.urlPath := Server.urlPath x;
                    Server.writes :=
                      Part000First.hushed (Server.writes x) |}))).
Proof.
  pose proof (first_loop_ignores_errors (Server.writes x)
                (Part000First.buf s) [] [] []) as H.
  split; [exact H |].
  unfold Part000First.handler. cbn [Server.writes].
  destruct (Part000First.writeLoop (Part000First.buf s) (Server.writes x) [] [])
    as [[[rest sent] said] e].
  destruct (Part000First.writeLoop (Part000First.buf s)
              (Part000First.hushed (Server.writes x)) [] [])
    as [[[rest' sent'] said'] e'].
  cbn in H. injection H as -> -> ->.
  destruct e'; cbn; by split.
Qed.
